(** * VLN-CE: the waypoint DD-PPO update step and its negative-feature stream

    A shallow embedding of [vlnce_baselines/common/ddppo_alg.py]:
    - [WDDPPO.get_advantages] and [WDDPPO.update] / [CWDDPPO.update],
    - [_block_shuffle] together with [random.shuffle],
    - [FramesDataset] ([__iter__], [_load_next], [__next__]).

    Tensors are flattened to lists of reals: float32 arithmetic is idealised
    as real arithmetic, so rounding, NaN and Inf are outside the model. The
    stored numpy arrays keep their shapes, which [_load_next] inspects. *)

From Stdlib Require Import Reals Lra Lia ZArith List.
From stdpp Require Import base list gmap strings.

(** ** Tensors *)

Module Tensor.
Local Open Scope R_scope.

(** A tensor of rank one (or a flattened one): its elements in row-major
    order. *)
Definition t := list R.

Definition sum (x : t) : R := foldr Rplus 0 x.

Definition numel (x : t) : nat := length x.

(** [x.mean()] *)
Definition mean (x : t) : R := sum x / INR (numel x).

(** [x.std()]: torch's default is the unbiased estimator (Bessel's
    correction, [numel - 1] in the denominator). With fewer than two
    elements torch returns NaN, which the reals do not have: the statements
    below that depend on the value of [std] ask for two elements or more. *)
Definition std (x : t) : R :=
  sqrt (sum (map (fun a => (a - mean x) * (a - mean x)) x)
        / (INR (numel x) - 1)).

(** Element-wise binary operations on tensors of one shape. *)
Definition sub (x y : t) : t := zip_with Rminus x y.
Definition add (x y : t) : t := zip_with Rplus x y.
Definition mul (x y : t) : t := zip_with Rmult x y.
Definition minimum (x y : t) : t := zip_with Rmin x y.
Definition maximum (x y : t) : t := zip_with Rmax x y.

(** Operations with a scalar. *)
Definition scale (c : R) (x : t) : t := map (Rmult c) x.
Definition pow2 (x : t) : t := map (fun a => a * a) x.
Definition exp (x : t) : t := map Rtrigo_def.exp x.

(** [torch.clamp(a, lo, hi)] is [min(max(a, lo), hi)]. *)
Definition clamp1 (lo hi a : R) : R := Rmin (Rmax a lo) hi.
Definition clamp (lo hi : R) (x : t) : t := map (clamp1 lo hi) x.

Definition zeros_like (x : t) : t := map (fun _ => 0) x.

(** [torch.nn.functional.l1_loss(input, target)], reduction ['mean']. *)
Definition l1_loss (input target : t) : R :=
  mean (map Rabs (sub input target)).

End Tensor.

(** ** The rollout buffer, as far as the advantage estimator reads it *)

(** [returns] and [value_preds] have shape (T+1, N): one row per step, one
    column per environment. *)
Record RolloutStorage := {
  returns : list Tensor.t;
  value_preds : list Tensor.t;
}.

(** ** Exceptions and the state-and-exception monad of the stateful code *)

Inductive exn :=
| ZeroDivisionError
| IndexError
| ValueError
| AttributeError
| TypeError.

Inductive result (A : Type) :=
| Ok (a : A)
| Raise (e : exn).
Arguments Ok {A} a.
Arguments Raise {A} e.

(** A computation over a state [S]: it returns or raises, and the state
    reached is kept either way. *)
Definition M (S A : Type) : Type := S -> result A * S.

Definition ret {S A} (a : A) : M S A := fun s => (Ok a, s).
Definition raise {S A} (e : exn) : M S A := fun s => (Raise e, s).
Definition bind {S A B} (m : M S A) (k : A -> M S B) : M S B :=
  fun s => match m s with
           | (Ok a, s') => k a s'
           | (Raise e, s') => (Raise e, s')
           end.
Definition get {S} : M S S := fun s => (Ok s, s).
Definition modify {S} (f : S -> S) : M S unit := fun s => (Ok tt, f s).

Declare Scope py_scope.
Delimit Scope py_scope with py.
Notation "x <- c ;; k" := (bind c (fun x => k))
  (at level 100, c at next level, right associativity) : py_scope.
Notation "c ;; k" := (bind c (fun _ => k))
  (at level 100, right associativity) : py_scope.

(** [for x in xs: acc = body(x, acc)] *)
Fixpoint for_each {S X A} (body : X -> A -> M S A) (xs : list X) (acc : A)
    : M S A :=
  match xs with
  | [] => ret acc
  | x :: xs' => bind (body x acc) (for_each body xs')
  end.

(** [for _ in range(n): acc = body(acc)] *)
Fixpoint for_range {S A} (n : nat) (body : A -> M S A) (acc : A) : M S A :=
  match n with
  | O => ret acc
  | S n' => bind (body acc) (for_range n' body)
  end.

(** ** The policy-update loop *)

(** The trainer's options read by the update. [ppo_epoch] and
    [num_mini_batch] are Python ints: nothing in the code keeps them
    positive. *)
Record Config := {
  use_normalized_advantage : bool;
  ppo_epoch : Z;
  num_mini_batch : Z;
  clip_param : R;
  value_loss_coef : R;
  entropy_coef : R;
  use_clipped_value_loss : bool;
  offset_regularize_coef : R;
  pano_entropy_coef : R;
  offset_entropy_coef : R;
  distance_entropy_coef : R;
}.

(** One element of [rollouts.recurrent_generator(...)]. Observations and
    actions are dicts of named tensors. *)
Record Sample := {
  obs_batch : gmap string Tensor.t;
  recurrent_hidden_states_batch : Tensor.t;
  actions_batch : gmap string Tensor.t;
  prev_actions_batch : gmap string Tensor.t;
  value_preds_batch : Tensor.t;
  return_batch : Tensor.t;
  masks_batch : Tensor.t;
  old_action_log_probs_batch : Tensor.t;
  adv_targ : Tensor.t;
}.

(** The entropy dict of [evaluate_actions]: its three entries. *)
Record Entropy := {
  pano : Tensor.t;
  offset : Tensor.t;
  distance : Tensor.t;
}.

(** What the update does to the outside world, in program order. *)
Inductive Event :=
| ZeroGrad
| BeforeBackward (loss : R)
| Backward (loss : R)
| AfterBackward (loss : R)
| BeforeStep
| OptimizerStep
| AfterStep.

(** The collaborators of the update, which live outside this file of the
    repository: the policy network, the rollout buffer's minibatch
    generator, the optimizer with the base trainer's hooks, and the loader
    of negative features. [Ext] is their joint state (network weights,
    gradients, optimizer state, generator seed, loader position);
    [effect] is how a call changes it. The generator gets
    [num_mini_batch] as it is. *)
Class Collaborators := {
  Ext : Type;
  evaluate_actions :
    Ext -> gmap string Tensor.t -> Tensor.t -> gmap string Tensor.t ->
    Tensor.t -> gmap string Tensor.t -> Tensor.t * Tensor.t * Entropy;
  offset_to_continuous : Ext -> Tensor.t -> Tensor.t;
  recurrent_generator :
    Ext -> RolloutStorage -> list Tensor.t -> Z -> list Sample;
  effect : Event -> Ext -> Ext;
  next_diter : Ext -> result (Tensor.t * Tensor.t) * Ext;
}.

Record World `{Collaborators} := {
  ext : Ext;
  trace : list Event;
}.

(** The six running sums of [update]. *)
Record Stats := {
  value_loss_epoch : R;
  action_loss_epoch : R;
  entropy_loss_epoch : R;
  pano_entropy_epoch : R;
  offset_entropy_epoch : R;
  distance_entropy_epoch : R;
}.

(** The loss terms of one minibatch. *)
Record Terms := {
  t_value_loss : R;
  t_action_loss : R;
  t_offset_loss : R;
  t_entropy_loss : R;
  t_pano_entropy : R;
  t_offset_entropy : R;
  t_distance_entropy : R;
}.

Module WDDPPO.
Local Open Scope R_scope.
Import Tensor.

(** The 1e-5 of [get_advantages]. *)
Definition EPS_PPO : R := 1 / 100000.

(** [rollouts.returns[:-1] - rollouts.value_preds[:-1]] *)
Definition raw_advantages (rollouts : RolloutStorage) : list Tensor.t :=
  zip_with sub (removelast (returns rollouts))
               (removelast (value_preds rollouts)).

(** [mean()] and [std()] reduce over all the elements of the tensor,
    whatever its shape: over [concat advantages] here. *)
Definition get_advantages (cfg : Config) (rollouts : RolloutStorage)
    : list Tensor.t :=
  let advantages := raw_advantages rollouts in
  if negb (use_normalized_advantage cfg) then advantages
  else
    let flat := concat advantages in
    map (map (fun a => (a - mean flat) / (std flat + EPS_PPO))) advantages.

Definition entropy_loss (cfg : Config) (entropy : Entropy) : R :=
  mean (add (add (scale (pano_entropy_coef cfg) (pano entropy))
                 (scale (offset_entropy_coef cfg) (offset entropy)))
            (scale (distance_entropy_coef cfg) (distance entropy)))
  * entropy_coef cfg.

Definition action_loss (cfg : Config)
    (action_log_probs old_action_log_probs_batch adv_targ : Tensor.t) : R :=
  let ratio := exp (sub action_log_probs old_action_log_probs_batch) in
  let surr1 := mul ratio adv_targ in
  let surr2 :=
    mul (clamp (1 - clip_param cfg) (1 + clip_param cfg) ratio) adv_targ in
  - mean (minimum surr1 surr2).

Definition value_pred_clipped (cfg : Config)
    (values value_preds_batch : Tensor.t) : Tensor.t :=
  add value_preds_batch
      (clamp (- clip_param cfg) (clip_param cfg)
             (sub values value_preds_batch)).

Definition value_losses (values return_batch : Tensor.t) : Tensor.t :=
  pow2 (sub values return_batch).

Definition value_losses_clipped (cfg : Config)
    (values value_preds_batch return_batch : Tensor.t) : Tensor.t :=
  pow2 (sub (value_pred_clipped cfg values value_preds_batch) return_batch).

(** The two branches of the value loss, before [value_loss_coef]. *)
Definition clipped_value_loss (cfg : Config)
    (values value_preds_batch return_batch : Tensor.t) : R :=
  (5 / 10)
  * mean (maximum (value_losses values return_batch)
                  (value_losses_clipped cfg values value_preds_batch
                                        return_batch)).

Definition unclipped_value_loss (values return_batch : Tensor.t) : R :=
  (5 / 10) * mean (pow2 (sub return_batch values)).

Definition value_loss (cfg : Config)
    (values value_preds_batch return_batch : Tensor.t) : R :=
  (if use_clipped_value_loss cfg
   then clipped_value_loss cfg values value_preds_batch return_batch
   else unclipped_value_loss values return_batch)
  * value_loss_coef cfg.

Definition offset_loss `{Collaborators} (cfg : Config) (x : Ext)
    (actions_batch : gmap string Tensor.t) : R :=
  match actions_batch !! "offset"%string with
  | Some a =>
      offset_regularize_coef cfg
      * l1_loss (offset_to_continuous x a) (zeros_like a)
  | None => 0
  end.

(** The loss that goes to [backward]. *)
Definition total_loss (ts : Terms) : R :=
  t_value_loss ts + t_action_loss ts + t_offset_loss ts - t_entropy_loss ts.

(** Lines 71 to 126: the forward pass and the terms of the loss. *)
Definition minibatch_terms `{Collaborators} (cfg : Config) (x : Ext)
    (obs : gmap string Tensor.t) (sample : Sample) : Terms :=
  let '(values, action_log_probs, entropy) :=
    evaluate_actions x obs
      (recurrent_hidden_states_batch sample) (prev_actions_batch sample)
      (masks_batch sample) (actions_batch sample) in
  {| t_value_loss :=
       value_loss cfg values (value_preds_batch sample) (return_batch sample);
     t_action_loss :=
       action_loss cfg action_log_probs (old_action_log_probs_batch sample)
                   (adv_targ sample);
     t_offset_loss := offset_loss cfg x (actions_batch sample);
     t_entropy_loss := entropy_loss cfg entropy;
     t_pano_entropy := mean (pano entropy);
     t_offset_entropy := mean (offset entropy);
     t_distance_entropy := mean (distance entropy) |}.

(** A call of a hook or of the optimizer: logged, and the world moves. *)
Definition call `{Collaborators} (e : Event) : M World unit :=
  modify (fun w => {| ext := effect e (ext w); trace := trace w ++ [e] |}).

Definition accumulate (acc : Stats) (ts : Terms) : Stats :=
  {| value_loss_epoch := value_loss_epoch acc + t_value_loss ts;
     action_loss_epoch := action_loss_epoch acc + t_action_loss ts;
     entropy_loss_epoch := entropy_loss_epoch acc + t_entropy_loss ts;
     pano_entropy_epoch := pano_entropy_epoch acc + t_pano_entropy ts;
     offset_entropy_epoch := offset_entropy_epoch acc + t_offset_entropy ts;
     distance_entropy_epoch :=
       distance_entropy_epoch acc + t_distance_entropy ts |}.

Local Open Scope py_scope.

(** Lines 71 to 144 (and 328 to 401 of [CWDDPPO.update], which are the
    same): one minibatch, from the forward pass to the running sums. *)
Definition minibatch_step `{Collaborators} (cfg : Config)
    (obs : gmap string Tensor.t) (sample : Sample) (acc : Stats)
    : M World Stats :=
  w <- get ;;
  let ts := minibatch_terms cfg (ext w) obs sample in
  call ZeroGrad ;;
  let loss := total_loss ts in
  call (BeforeBackward loss) ;;
  call (Backward loss) ;;
  call (AfterBackward loss) ;;
  call BeforeStep ;;
  call OptimizerStep ;;
  call AfterStep ;;
  ret (accumulate acc ts).

Definition zero_stats : Stats :=
  {| value_loss_epoch := 0; action_loss_epoch := 0; entropy_loss_epoch := 0;
     pano_entropy_epoch := 0; offset_entropy_epoch := 0;
     distance_entropy_epoch := 0 |}.

(** Python's [x / n] for a float [x] and an int [n]. *)
Definition py_div {S} (x : R) (n : Z) : M S R :=
  if (n =? 0)%Z then raise ZeroDivisionError else ret (x / IZR n).

(** Lines 146 to 154: the six averages. *)
Definition averages {S} (acc : Stats) (num_updates : Z)
    : M S (R * R * R * R * R * R) :=
  v <- py_div (value_loss_epoch acc) num_updates ;;
  a <- py_div (action_loss_epoch acc) num_updates ;;
  e <- py_div (entropy_loss_epoch acc) num_updates ;;
  p <- py_div (pano_entropy_epoch acc) num_updates ;;
  o <- py_div (offset_entropy_epoch acc) num_updates ;;
  d <- py_div (distance_entropy_epoch acc) num_updates ;;
  ret (v, a, e, p, o, d).

(** [range] of an int that is not positive is empty. *)
Definition update `{Collaborators} (cfg : Config) (rollouts : RolloutStorage)
    : M World (R * R * R * R * R * R) :=
  let advantages := get_advantages cfg rollouts in
  acc <- for_range (Z.to_nat (ppo_epoch cfg)) (fun acc =>
           w <- get ;;
           let data_generator :=
             recurrent_generator (ext w) rollouts advantages
                                 (num_mini_batch cfg) in
           for_each (fun sample acc =>
                       minibatch_step cfg (obs_batch sample) sample acc)
                    data_generator acc)
         zero_stats ;;
  let num_updates := (ppo_epoch cfg * num_mini_batch cfg)%Z in
  averages acc num_updates.

End WDDPPO.

Module CWDDPPO.
Local Open Scope py_scope.

(** [__init__] (lines 277 to 293) builds the dataset and stores in
    [self.diter] the [torch.utils.data.DataLoader] over it, not an iterator
    of that loader. A DataLoader has [__iter__] and no [__next__]: [next]
    of it raises TypeError, whatever the dataset holds, and leaves it as it
    was. The collaborators of a trainer so built are those of the base
    trainer with this loader. *)
Definition __init__ (C : Collaborators) : Collaborators :=
  {| Ext := @Ext C;
     evaluate_actions := @evaluate_actions C;
     offset_to_continuous := @offset_to_continuous C;
     recurrent_generator := @recurrent_generator C;
     effect := @effect C;
     next_diter := fun x => (Raise TypeError, x) |}.

(** [next(self.diter)]: what the loader answers, a batch or an
    exception, and the state it is left in. The loop of [update] is
    modelled for any loader, the one of [__init__] among them. *)
Definition next_negatives `{Collaborators} : M World (Tensor.t * Tensor.t) :=
  fun w =>
    let '(r, x) := next_diter (ext w) in
    (r, {| ext := x; trace := trace w |}).

Definition update `{Collaborators} (cfg : Config) (rollouts : RolloutStorage)
    : M World (R * R * R * R * R * R) :=
  let advantages := WDDPPO.get_advantages cfg rollouts in
  acc <- for_range (Z.to_nat (ppo_epoch cfg)) (fun acc =>
           w <- get ;;
           let data_generator :=
             recurrent_generator (ext w) rollouts advantages
                                 (num_mini_batch cfg) in
           for_each (fun sample acc =>
                       negs <- next_negatives ;;
                       let obs :=
                         <["neg_depth_features"%string := negs.2]>
                           (<["neg_rgb_features"%string := negs.1]>
                              (obs_batch sample)) in
                       WDDPPO.minibatch_step cfg obs sample acc)
                    data_generator acc)
         WDDPPO.zero_stats ;;
  let num_updates := (ppo_epoch cfg * num_mini_batch cfg)%Z in
  WDDPPO.averages acc num_updates.

End CWDDPPO.

(** ** [random]: the module's generator and [shuffle] *)

Module random.

(** The state of the generator: the raw draws still to come. Any run of
    the generator is one such tape; an exhausted tape draws 0. *)
Definition state := list nat.

(** [_randbelow(n)]: a draw in [0, n). *)
Definition _randbelow (n : nat) (g : state) : nat * state :=
  match g with
  | [] => (O, [])
  | r :: g' => (r mod n, g')
  end.

(** [x[i], x[j] = x[j], x[i]] *)
Definition swap {A} (x : list A) (i j : nat) : list A :=
  match x !! i, x !! j with
  | Some a, Some b => <[j := a]> (<[i := b]> x)
  | _, _ => x
  end.

(** [for i in reversed(range(1, len(x))): j = randbelow(i + 1); swap],
    from [i] downwards. *)
Fixpoint shuffle_from {A} (i : nat) (x : list A) (g : state)
    : list A * state :=
  match i with
  | O => (x, g)
  | S i' =>
      let '(j, g') := _randbelow (S i) g in
      shuffle_from i' (swap x i j) g'
  end.

Definition shuffle {A} (x : list A) : M state (list A) :=
  fun g => let '(x', g') := shuffle_from (length x - 1) x g in (Ok x', g').

End random.

(** [range(0, stop, step)] for a positive [step]: [(stop - 1) // step + 1]
    items when [0 < stop], the item of rank [k] being [k * step]. *)
Definition range_step (stop step : nat) : list nat :=
  (fun k => k * step)%nat
    <$> seq 0 (if Nat.ltb 0 stop then (stop - 1) / step + 1 else 0)%nat.

(** [[lst[i : i + block_size] for i in range(0, len(lst), block_size)]]:
    [range] refuses a zero step and is empty for a negative one. *)
Definition blocks {A} (lst : list A) (block_size : Z)
    : result (list (list A)) :=
  if (block_size =? 0)%Z then Raise ValueError
  else if (block_size <? 0)%Z then Ok []
  else
    let n := Z.to_nat block_size in
    Ok ((fun i => take n (drop i lst)) <$> range_step (length lst) n).

Definition _block_shuffle {A} (lst : list A) (block_size : Z)
    : M random.state (list A) :=
  fun g =>
    match blocks lst block_size with
    | Raise e => (Raise e, g)
    | Ok bs =>
        let '(r, g') := random.shuffle bs g in
        (match r with
         | Ok bs' => Ok (concat bs')
         | Raise e => Raise e
         end, g')
    end.

(** ** The streaming dataset of negative features *)

Module FramesDataset.
Local Open Scope Z_scope.
Local Open Scope py_scope.

(** A numpy array: its shape, and its elements in row-major order, as many
    as the product of the shape. *)
Record ndarray := {
  shape : list nat;
  data : list R;
}.

#[global] Instance ndarray_inhabited : Inhabited ndarray :=
  populate {| shape := []; data := [] |}.

(** A yielded element: an (rgb, depth) pair of feature maps. *)
Definition pair : Type := ndarray * ndarray.

(** The observation of a stored record: the arrays under
    ['rgb_features'] and ['depth_features']. The store holds what the
    collector wrote, a triple whose first component is a dict with these
    two arrays; values of another form are outside the model. *)
Record Observation := {
  rgb_features : ndarray;
  depth_features : ndarray;
}.

(** The attributes of the dataset object. [start], [end] and
    [load_ordering] do not exist before [__iter__]. *)
Record t := {
  preload_size : Z;
  _preload : list pair;
  batch_size : Z;
  length : Z;
  start : option Z;
  end_ : option Z;
  load_ordering : option (list Z);
}.

(** The world of one worker: its dataset object, the feature store on
    disk (keyed by the record index, which the code spells in decimal),
    the generator of [random], and the keys read from the store so far. *)
Record World := {
  self : t;
  lmdb : gmap Z Observation;
  rng : random.state;
  reads : list Z;
}.

Definition __init__ (store : gmap Z Observation) (batch_size : Z) : t :=
  {| preload_size := batch_size * 10;
     _preload := [];
     batch_size := batch_size;
     length := Z.of_nat (size store);
     start := None;
     end_ := None;
     load_ordering := None |}.

(** Attribute access and assignment. *)
Definition attr {A} (f : t -> option A) : M World A :=
  fun w => match f (self w) with
           | Some a => (Ok a, w)
           | None => (Raise AttributeError, w)
           end.

Definition set_self (f : t -> t) : M World unit :=
  modify (fun w => {| self := f (self w); lmdb := lmdb w; rng := rng w;
                      reads := reads w |}).

Definition set_shard (s e : Z) : M World unit :=
  set_self (fun d =>
    {| preload_size := preload_size d; _preload := _preload d;
       batch_size := batch_size d; length := length d;
       start := Some s; end_ := Some e;
       load_ordering := load_ordering d |}).

Definition set_load_ordering (q : list Z) : M World unit :=
  set_self (fun d =>
    {| preload_size := preload_size d; _preload := _preload d;
       batch_size := batch_size d; length := length d;
       start := start d; end_ := end_ d;
       load_ordering := Some q |}).

Definition set_preload (p : list pair) : M World unit :=
  set_self (fun d =>
    {| preload_size := preload_size d; _preload := p;
       batch_size := batch_size d; length := length d;
       start := start d; end_ := end_ d;
       load_ordering := load_ordering d |}).

(** A computation of [random] run on the worker's generator. *)
Definition with_rng {A} (m : M random.state A) : M World A :=
  fun w => let '(r, g) := m (rng w) in
           (r, {| self := self w; lmdb := lmdb w; rng := g;
                  reads := reads w |}).

(** [l.pop()] *)
Definition list_pop {A} (l : list A) : option (A * list A) :=
  match last l with
  | Some x => Some (x, removelast l)
  | None => None
  end.

(** [l[i]] *)
Definition index {A S} (l : list A) (i : nat) : M S A :=
  match l !! i with
  | Some x => ret x
  | None => raise IndexError
  end.

(** [range(a, b)] *)
Definition range (a b : Z) : list Z := seqZ a (b - a).

(** [msgpack_numpy.unpackb(txn.get(str(idx).encode()))]: the read is
    logged. For an absent key [txn.get] returns [None], which [unpackb]
    refuses with TypeError. *)
Definition txn_get (idx : Z) : M World Observation :=
  fun w =>
    let w' := {| self := self w; lmdb := lmdb w; rng := rng w;
                 reads := reads w ++ [idx] |} in
    match lmdb w !! idx with
    | Some o => (Ok o, w')
    | None => (Raise TypeError, w')
    end.

(** The number of elements of an array of shape [sh]. *)
Definition size_of (sh : list nat) : nat := foldr Nat.mul 1%nat sh.

(** [a.reshape(new)]: the same elements under another shape. numpy refuses
    a shape of another size with ValueError. *)
Definition reshape {S} (new : list nat) (a : ndarray) : M S ndarray :=
  if Nat.eqb (size_of new) (size_of (shape a))
  then ret {| shape := new; data := data a |}
  else raise ValueError.

(** [a[k]] for an array whose rows have the shape [rest]. *)
Definition row (rest : list nat) (a : ndarray) (k : nat) : ndarray :=
  {| shape := rest;
     data := take (size_of rest) (drop (k * size_of rest) (data a)) |}.

(** Iteration over an array: the sub-arrays [a[0]], [a[1]], ... along the
    first axis. An array without dimensions is not iterable. *)
Definition rows {S} (a : ndarray) : M S (list ndarray) :=
  match shape a with
  | [] => raise TypeError
  | d :: rest => ret (row rest a <$> seq 0 d)
  end.

(** Lines 222 to 227: the pairs of a record. The shape of the rgb array is
    unpacked into five names, which raises ValueError for any other number
    of dimensions; both arrays are reshaped to [n * c] rows, which raises
    ValueError for a depth array of another size; the rows are zipped. *)
Definition pairs_of {S} (obs : Observation) : M S (list pair) :=
  let rgb_feat := rgb_features obs in
  let depth_feat := depth_features obs in
  match shape rgb_feat with
  | [n; c; _; _; _] =>
      rgb_feat <- reshape ((n * c)%nat :: drop 2 (shape rgb_feat)) rgb_feat ;;
      depth_feat <-
        reshape ((n * c)%nat :: drop 2 (shape depth_feat)) depth_feat ;;
      rgbs <- rows rgb_feat ;;
      depths <- rows depth_feat ;;
      ret (zip rgbs depths)
  | _ => raise ValueError
  end.

(** The [while] loop of [_load_next]. Every turn pops the queue, so
    [fuel], the length of the queue on entry, is never what ends it. *)
Fixpoint load_loop (fuel : nat) (new_preload : list pair)
    : M World (list pair) :=
  match fuel with
  | O => ret new_preload
  | S fuel' =>
      w <- get ;;
      if Z.of_nat (List.length new_preload) <? preload_size (self w) then
        q <- attr load_ordering ;;
        match list_pop q with
        | None => ret new_preload
        | Some (idx, q') =>
            set_load_ordering q' ;;
            obs <- txn_get idx ;;
            new_pairs <- pairs_of obs ;;
            load_loop fuel' (new_preload ++ new_pairs)
        end
      else ret new_preload
  end.

(** The queue of a fresh pass: block-shuffled, then reversed for
    [pop]. *)
Definition new_load_ordering : M World unit :=
  w <- get ;;
  s <- attr start ;;
  e <- attr end_ ;;
  o <- with_rng (_block_shuffle (range s e) (preload_size (self w))) ;;
  set_load_ordering (reverse o).

(** The body of [if len(self._preload) < self.batch_size]: the refill of
    the preload buffer. *)
Definition refill : M World unit :=
  w <- get ;;
  q <- attr load_ordering ;;
  (if Nat.eqb (List.length q) 0 then new_load_ordering else ret tt) ;;
  q <- attr load_ordering ;;
  new_preload <- load_loop (List.length q) [] ;;
  sorted_ordering <-
    with_rng (random.shuffle (seq 0 (List.length new_preload))) ;;
  order <- with_rng (_block_shuffle sorted_ordering (batch_size (self w))) ;;
  for_each (fun idx (_ : unit) =>
              x <- index new_preload idx ;;
              w <- get ;;
              set_preload (_preload (self w) ++ [x]))
           order tt.

Definition _load_next : M World pair :=
  w <- get ;;
  (if Z.of_nat (List.length (_preload (self w))) <? batch_size (self w)
   then refill else ret tt) ;;
  w <- get ;;
  match list_pop (_preload (self w)) with
  | Some (x, p) => set_preload p ;; ret x
  | None => raise IndexError
  end.

(** [np.copy] and [torch.from_numpy] keep the values. *)
Definition __next__ : M World pair := _load_next.

(** [int(np.ceil(a / b))], the quotient taken exactly. *)
Definition ceil_div (a b : Z) : Z := - ((- a) / b).

(** The shard of a worker: [worker_info] is [None] in the main process,
    or the worker's [id] and [num_workers]. *)
Definition shard (length : Z) (worker_info : option (Z * Z)) : Z * Z :=
  match worker_info with
  | None => (0, length)
  | Some (id, num_workers) =>
      let per_worker := ceil_div length num_workers in
      let start := per_worker * id in
      (start, Z.min (start + per_worker) length)
  end.

Definition __iter__ (worker_info : option (Z * Z)) : M World unit :=
  w <- get ;;
  (match worker_info with
   | Some (_, 0) => raise ZeroDivisionError
   | _ => ret tt
   end) ;;
  let '(s, e) := shard (length (self w)) worker_info in
  set_shard s e ;;
  new_load_ordering.

(** [n] calls of [__next__], with what they yielded. *)
Fixpoint take_items (n : nat) : M World (list pair) :=
  match n with
  | O => ret []
  | S n' =>
      x <- __next__ ;;
      xs <- take_items n' ;;
      ret (x :: xs)
  end.

End FramesDataset.

(** ** Vocabulary of the statements *)

(** *** The advantage estimator, in the words of the specification *)

Module Spec.
Local Open Scope R_scope.
Import Tensor.

(** The population standard deviation: [numel] in the denominator. *)
Definition spec_population_std (x : Tensor.t) : R :=
  sqrt (sum (map (fun a => (a - mean x) * (a - mean x)) x) / INR (numel x)).

(** Standardization over the whole tensor with the population mean and the
    population standard deviation, 1e-5 added to the denominator. *)
Definition spec_standardize (advantages : list Tensor.t) : list Tensor.t :=
  let flat := concat advantages in
  map (map (fun a =>
              (a - mean flat) / (spec_population_std flat + 1 / 100000)))
      advantages.

End Spec.

(** *** Traces of the update *)

(** The calls of one minibatch, in program order. *)
Definition step_events (loss : R) : list Event :=
  [ZeroGrad; BeforeBackward loss; Backward loss; AfterBackward loss;
   BeforeStep; OptimizerStep; AfterStep].

(** The trace of a run of minibatches with the given terms. *)
Definition events_of (tss : list Terms) : list Event :=
  flat_map (fun ts => step_events (WDDPPO.total_loss ts)) tss.

(** The collaborators after the calls of a minibatch with the terms
    [ts]. *)
Definition stepped `{Collaborators} (x : Ext) (ts : Terms) : Ext :=
  foldl (fun x e => effect e x) x (step_events (WDDPPO.total_loss ts)).

(** The minibatches of one epoch of [WDDPPO.update]: the terms of each
    sample in turn, on the collaborators as the minibatches before left
    them; and the collaborators after the last. *)
Fixpoint epoch_terms `{Collaborators} (cfg : Config) (samples : list Sample)
    (x : Ext) : list Terms * Ext :=
  match samples with
  | [] => ([], x)
  | sample :: rest =>
      let ts := WDDPPO.minibatch_terms cfg x (obs_batch sample) sample in
      let '(tss, x') := epoch_terms cfg rest (stepped x ts) in
      (ts :: tss, x')
  end.

(** The minibatches of [epochs] epochs, each on the samples that the
    generator yields when the epoch starts. *)
Fixpoint run_terms `{Collaborators} (cfg : Config) (rollouts : RolloutStorage)
    (epochs : nat) (x : Ext) : list Terms * Ext :=
  match epochs with
  | O => ([], x)
  | S n =>
      let '(tss1, x1) :=
        epoch_terms cfg
          (recurrent_generator x rollouts (WDDPPO.get_advantages cfg rollouts)
                               (num_mini_batch cfg)) x in
      let '(tss2, x2) := run_terms cfg rollouts n x1 in
      (tss1 ++ tss2, x2)
  end.

(** The observations of a minibatch of [CWDDPPO.update]: the sample's,
    with the two batches of negatives. *)
Definition with_negatives (negs : Tensor.t * Tensor.t)
    (obs : gmap string Tensor.t) : gmap string Tensor.t :=
  <["neg_depth_features"%string := negs.2]>
    (<["neg_rgb_features"%string := negs.1]> obs).

(** The same for [CWDDPPO.update], which asks the loader for negatives
    before each minibatch and stops at the first exception of the loader:
    the minibatches completed, the exception if any, the collaborators
    left. *)
Fixpoint cw_epoch_terms `{Collaborators} (cfg : Config)
    (samples : list Sample) (x : Ext) : list Terms * option exn * Ext :=
  match samples with
  | [] => ([], None, x)
  | sample :: rest =>
      match next_diter x with
      | (Raise e, x1) => ([], Some e, x1)
      | (Ok negs, x1) =>
          let ts :=
            WDDPPO.minibatch_terms cfg x1
              (with_negatives negs (obs_batch sample)) sample in
          let '(tss, stop, x') := cw_epoch_terms cfg rest (stepped x1 ts) in
          (ts :: tss, stop, x')
      end
  end.

Fixpoint cw_run_terms `{Collaborators} (cfg : Config)
    (rollouts : RolloutStorage) (epochs : nat) (x : Ext)
    : list Terms * option exn * Ext :=
  match epochs with
  | O => ([], None, x)
  | S n =>
      match cw_epoch_terms cfg
              (recurrent_generator x rollouts
                 (WDDPPO.get_advantages cfg rollouts) (num_mini_batch cfg)) x
      with
      | (tss1, Some e, x1) => (tss1, Some e, x1)
      | (tss1, None, x1) =>
          let '(tss2, stop, x2) := cw_run_terms cfg rollouts n x1 in
          (tss1 ++ tss2, stop, x2)
      end
  end.

(** The sum of one term over the minibatches of a run, and the six
    quotients that [update] returns for them. *)
Definition total (f : Terms -> R) (tss : list Terms) : R :=
  Tensor.sum (f <$> tss).

Definition averages_of (tss : list Terms) (num_updates : Z)
    : R * R * R * R * R * R :=
  ((total t_value_loss tss / IZR num_updates)%R,
   (total t_action_loss tss / IZR num_updates)%R,
   (total t_entropy_loss tss / IZR num_updates)%R,
   (total t_pano_entropy tss / IZR num_updates)%R,
   (total t_offset_entropy tss / IZR num_updates)%R,
   (total t_distance_entropy tss / IZR num_updates)%R).

(** The loop body of [CWDDPPO.update]. *)
Definition cw_body `{Collaborators} (cfg : Config) (sample : Sample)
    (acc : Stats) : M World Stats :=
  bind CWDDPPO.next_negatives (fun negs =>
    WDDPPO.minibatch_step cfg (with_negatives negs (obs_batch sample))
                          sample acc).

(** The contract of the rollout buffer: a generator asked for [n]
    minibatches, [n] not negative, yields [n] samples. *)
Definition generator_contract `{Collaborators} : Prop :=
  forall x r a n, (0 <= n)%Z ->
    length (recurrent_generator x r a n) = Z.to_nat n.

(** *** Inputs of the examples *)

Definition mk_cfg (norm : bool) (clip : R) : Config :=
  {| use_normalized_advantage := norm; ppo_epoch := 2; num_mini_batch := 2;
     clip_param := clip; value_loss_coef := 1; entropy_coef := 1;
     use_clipped_value_loss := true; offset_regularize_coef := 1;
     pano_entropy_coef := 1; offset_entropy_coef := 1;
     distance_entropy_coef := 1 |}.

(** T = 2 steps of one environment, advantages 0 and 2. *)
Definition two_step_rollout : RolloutStorage :=
  {| returns := [[0%R]; [2%R]; [0%R]];
     value_preds := [[0%R]; [0%R]; [0%R]] |}.

(** T = 5 steps of N = 2 environments, returns 10 and value predictions 8
    everywhere. *)
Definition constant_rollout : RolloutStorage :=
  {| returns := replicate 6 [10%R; 10%R];
     value_preds := replicate 6 [8%R; 8%R] |}.

Definition clip_example : Config := mk_cfg true (2 / 10).

Definition empty_sample : Sample :=
  {| obs_batch := ∅; recurrent_hidden_states_batch := [];
     actions_batch := ∅; prev_actions_batch := ∅; value_preds_batch := [];
     return_batch := []; masks_batch := []; old_action_log_probs_batch := [];
     adv_targ := [] |}.

(** Collaborators without a state: a network that returns empty tensors, a
    generator of empty samples, a loader of empty batches. *)
Definition still_collaborators : Collaborators :=
  {| Ext := unit;
     evaluate_actions := fun _ _ _ _ _ _ =>
       ([], [], {| pano := []; offset := []; distance := [] |});
     offset_to_continuous := fun _ a => a;
     recurrent_generator := fun _ _ _ n => replicate (Z.to_nat n) empty_sample;
     effect := fun _ x => x;
     next_diter := fun x => (Ok ([], []), x) |}.

(** Their world before any call. *)
Definition still_world : @World still_collaborators :=
  @Build_World still_collaborators tt [].

(** The same collaborators for a trainer built by [CWDDPPO.__init__]. *)
Definition built_world : @World (CWDDPPO.__init__ still_collaborators) :=
  @Build_World (CWDDPPO.__init__ still_collaborators) tt [].


(** *** Iteration over a shard *)

Module Stream.
Import FramesDataset.
Local Open Scope Z_scope.

(** The attributes and the store that iteration never changes. *)
Definition same_config (w w' : World) : Prop :=
  lmdb w' = lmdb w
  /\ preload_size (self w') = preload_size (self w)
  /\ batch_size (self w') = batch_size (self w)
  /\ length (self w') = length (self w)
  /\ start (self w') = start (self w)
  /\ end_ (self w') = end_ (self w).

(** The pairs of the record stored under a key: none when the key is
    absent or when [_load_next] cannot take the record apart. *)
Definition pairs_at (store : gmap Z Observation) (i : Z) : list pair :=
  match store !! i with
  | Some o =>
      match (pairs_of o tt).1 with
      | Ok ps => ps
      | Raise _ => []
      end
  | None => []
  end.

(** The store holds a record under the key, and the record is well
    formed: its rgb array has five dimensions (n, c, d1, d2, d3), its
    depth array has the size of [n * c] rows of its own trailing shape, and
    [n * c] is not 0, so that it holds a pair at least. *)
Definition loadable (store : gmap Z Observation) (i : Z) : Prop :=
  exists o n c d1 d2 d3,
    store !! i = Some o
    /\ shape (rgb_features o) = [n; c; d1; d2; d3]
    /\ size_of (shape (depth_features o))
       = (n * c * size_of (drop 2 (shape (depth_features o))))%nat
    /\ (0 < n * c)%nat.

(** What iteration needs of a worker's world: a shard that is not empty,
    a positive batch size, and a store in which every record of the shard
    is loadable. *)
Record ready (s e : Z) (w : World) : Prop := {
  r_start : start (self w) = Some s;
  r_end : end_ (self w) = Some e;
  r_shard : s < e;
  r_batch : 0 < batch_size (self w);
  r_preload : preload_size (self w) = batch_size (self w) * 10;
  r_store : forall i, s <= i < e -> loadable (lmdb w) i;
}.

(** How a refill moved along the passes, from the queue [q]: the keys it
    read and the queue it left, either inside the pass under way or, when
    [q] was empty, at the head of a new pass [P]. *)
Inductive advance (s e : Z) (ps : Z) (q : list Z)
    : list Z -> list Z -> Prop :=
| advance_within f rest :
    q <> [] -> reverse q = f ++ rest -> f <> [] ->
    advance s e ps q f (reverse rest)
| advance_new_pass P f rest :
    q = [] -> P ≡ₚ range s e ->
    (Z.of_nat (List.length (range s e)) <= ps -> P = range s e) ->
    P = f ++ rest -> f <> [] ->
    advance s e ps q f (reverse rest).

(** A pass: the keys of the shard, each once; in their own order when the
    shard is a single block. *)
Definition pass_ok (s e ps : Z) (P : list Z) : Prop :=
  P ≡ₚ range s e
  /\ (Z.of_nat (List.length (range s e)) <= ps -> P = range s e).

(** The keys read so far are the passes [done] and the part [cur] of the
    pass under way, which the queue completes. *)
Record tracking (s e : Z) (w : World) (done : list (list Z)) (cur : list Z)
    : Prop := {
  t_ready : ready s e w;
  t_reads : reads w = concat done ++ cur;
  t_done : Forall (pass_ok s e (preload_size (self w))) done;
  t_cur : exists q, load_ordering (self w) = Some q
                    /\ pass_ok s e (preload_size (self w)) (cur ++ reverse q);
}.

(** The world of a worker whose dataset object has just been built. *)
Definition fresh (store : gmap Z Observation) (batch_size : Z)
    (g : random.state) : World :=
  {| self := __init__ store batch_size; lmdb := store; rng := g; reads := [] |}.

(** [n] calls of [__next__] lead from [w] to [w']. *)
Definition run (n : nat) (w w' : World) : Prop :=
  exists items, take_items n w = (Ok items, w') /\ List.length items = n.

(** The keys of worker [w] out of [W], for [L] records. *)
Definition shard_range (L W w : Z) : list Z :=
  let '(s, e) := shard L (Some (w, W)) in range s e.

(** A record of one segment with one frame: an rgb map of shape
    (1, 1, 2, 1, 1) and a depth map of shape (1, 1, 1, 1, 1). *)
Definition one_pair_record : Observation :=
  {| rgb_features := {| shape := [1; 1; 2; 1; 1]%nat; data := [0%R; 1%R] |};
     depth_features := {| shape := [1; 1; 1; 1; 1]%nat; data := [2%R] |} |}.

(** A record whose depth array has one row where the rgb array has two. *)
Definition mismatched_record : Observation :=
  {| rgb_features := {| shape := [2; 1; 1; 1; 1]%nat; data := [0%R; 1%R] |};
     depth_features := {| shape := [1; 1; 1; 1; 1]%nat; data := [2%R] |} |}.

(** A store of [n] such records, under the keys 0 to n - 1. *)
Definition store_of (n : Z) : gmap Z Observation :=
  list_to_map ((fun i => (i, one_pair_record)) <$> seqZ 0 n).

(** Whether every key of [keys] is loadable. *)
Definition holds_pairs (store : gmap Z Observation) (keys : list Z) : bool :=
  forallb (fun i => match pairs_at store i with [] => false | _ => true end)
          keys.

End Stream.

(** ** Further vocabulary *)

(** The rollout with its last step replaced. *)
Definition with_last_step (ret vp : Tensor.t) (rollouts : RolloutStorage)
    : RolloutStorage :=
  {| returns := removelast (returns rollouts) ++ [ret];
     value_preds := removelast (value_preds rollouts) ++ [vp] |}.

(** The function that normalization applies to every advantage of a
    tensor of two elements or more. *)
Definition normalizer (flat : Tensor.t) (a : R) : R :=
  ((a - Tensor.mean flat) / (Tensor.std flat + WDDPPO.EPS_PPO))%R.

(** Collaborators as [still_collaborators], with a loader that raises
    TypeError whenever asked. *)
Definition broken_loader_collaborators : Collaborators :=
  {| Ext := unit;
     evaluate_actions := fun _ _ _ _ _ _ =>
       ([], [], {| pano := []; offset := []; distance := [] |});
     offset_to_continuous := fun _ a => a;
     recurrent_generator := fun _ _ _ n => replicate (Z.to_nat n) empty_sample;
     effect := fun _ x => x;
     next_diter := fun x => (Raise TypeError, x) |}.

(** The trainer with the offset regularization at its default, 0.0. *)
Definition no_offset_cfg : Config :=
  {| use_normalized_advantage := true; ppo_epoch := 1;
     num_mini_batch := 1; clip_param := 2 / 10; value_loss_coef := 1;
     entropy_coef := 1; use_clipped_value_loss := true;
     offset_regularize_coef := 0; pano_entropy_coef := 1;
     offset_entropy_coef := 1; distance_entropy_coef := 1 |}.

Definition broken_loader_world : @World broken_loader_collaborators :=
  @Build_World broken_loader_collaborators tt [].

(** ** The batch collator *)

Module Collate.
Section Collate.
(** Feature maps [F] with their shapes. *)
Context {F Sh : Type} `{EqDecision Sh} (shape : F -> Sh).

(** [torch.stack(tensors, 0)]: the tensors along a new first axis. It
    refuses (RuntimeError, here [None]) an empty list and tensors that are
    not all of one shape. *)
Definition stack (tensors : list F) : option (list F) :=
  match tensors with
  | [] => None
  | x :: _ =>
      if forallb (fun y => bool_decide (shape y = shape x)) tensors
      then Some tensors else None
  end.

(** The two lists that the loop of [fn] builds, one [append] each per
    element of the batch. *)
Definition feat_lists (batch : list (F * F)) : list F * list F :=
  foldl (fun acc item => (acc.1 ++ [item.1], acc.2 ++ [item.2])) ([], []) batch.

Definition fn (batch : list (F * F)) : option (list F * list F) :=
  let '(rgb_feat_list, depth_feat_list) := feat_lists batch in
  match stack rgb_feat_list with
  | None => None
  | Some rgb_feats =>
      match stack depth_feat_list with
      | None => None
      | Some depth_feats => Some (rgb_feats, depth_feats)
      end
  end.

(** All the tensors of a list have one shape. *)
Definition uniform (tensors : list F) : Prop :=
  forall x y, x ∈ tensors -> y ∈ tensors -> shape x = shape y.
End Collate.
End Collate.

(** A store whose only record sits under the key 5. *)
Definition misnumbered_store : gmap Z FramesDataset.Observation :=
  {[ 5%Z := Stream.one_pair_record ]}.

(** A store whose only record has a depth array of the wrong size. *)
Definition mismatched_store : gmap Z FramesDataset.Observation :=
  {[ 0%Z := Stream.mismatched_record ]}.

Module Buffer.
Import FramesDataset.

(** Neither the store nor the reads nor the buffer change. *)
Definition untouched (w w1 : World) : Prop :=
  lmdb w1 = lmdb w /\ reads w1 = reads w
  /\ _preload (self w1) = _preload (self w)
  /\ batch_size (self w1) = batch_size (self w)
  /\ preload_size (self w1) = preload_size (self w).

End Buffer.

(** * Proofs *)

(** The first [bind] of the goal runs the primitive [c]. *)
Tactic Notation "enter" reference(c) := unfold bind at 1; unfold c at 1.

Section Losses.
Local Open Scope R_scope.
Import Tensor WDDPPO Spec.

Lemma sum_shift (c k : R) (x : Tensor.t) :
  sum (map (fun a => (a - c) / k) x) = (sum x - INR (length x) * c) / k.
Proof.
  unfold sum. induction x as [|a x IH].
  - cbn. unfold Rdiv. lra.
  - cbn [map foldr length]. rewrite IH, S_INR. unfold Rdiv. lra.
Qed.

Lemma concat_map_map {A B} (f : A -> B) (l : list (list A)) :
  concat (map (map f) l) = map f (concat l).
Proof. induction l as [|x l IH]; cbn; [done | by rewrite IH, map_app]. Qed.

(** C1, as the code has it. Without normalization [get_advantages] returns
    [returns[:-1] - value_preds[:-1]] unchanged. With normalization, on a
    tensor of two elements or more, every element [a] becomes
    [(a - mu) / (sigma + 1e-5)], where [mu] is the mean over all steps and
    environments jointly and [sigma] is the unbiased standard deviation over
    the same elements (the sum of squared deviations divided by [n - 1], not
    by [n]); the result then sums to zero. *)
Theorem get_advantages_standardizes (cfg : Config) (rollouts : RolloutStorage) :
  let A := zip_with (zip_with Rminus) (removelast (returns rollouts))
                    (removelast (value_preds rollouts)) in
  let flat := concat A in
  let n := INR (length flat) in
  let mu := sum flat / n in
  let sigma := sqrt (sum (map (fun a => (a - mu) * (a - mu)) flat) / (n - 1)) in
  (use_normalized_advantage cfg = false -> get_advantages cfg rollouts = A)
  /\ (use_normalized_advantage cfg = true -> (2 <= length flat)%nat ->
      get_advantages cfg rollouts
      = map (map (fun a => (a - mu) / (sigma + 1 / 100000))) A
      /\ sum (concat (get_advantages cfg rollouts)) = 0).
Proof.
  intros A flat n mu sigma. unfold get_advantages. split; intros ->; cbn [negb].
  - reflexivity.
  - intros Hlen. split; [reflexivity|].
    fold (raw_advantages rollouts). change (raw_advantages rollouts) with A.
    rewrite concat_map_map. fold flat. rewrite sum_shift.
    assert (Hn : n <> 0).
    { unfold n. apply not_0_INR. lia. }
    unfold mean, numel. fold n.
    replace (sum flat - n * (sum flat / n)) with 0 by (field; exact Hn).
    unfold Rdiv. lra.
Qed.

Lemma get_advantages_standardizes_witness :
  get_advantages (mk_cfg false (2 / 10)) two_step_rollout
  = zip_with (zip_with Rminus) (removelast (returns two_step_rollout))
             (removelast (value_preds two_step_rollout))
  /\ sum (concat (get_advantages (mk_cfg true (2 / 10)) two_step_rollout)) = 0.
Proof.
  split.
  - apply (proj1 (get_advantages_standardizes (mk_cfg false (2 / 10))
                    two_step_rollout)).
    reflexivity.
  - apply (proj2 (get_advantages_standardizes (mk_cfg true (2 / 10))
                    two_step_rollout)).
    + reflexivity.
    + simpl. lia.
Defined.

Lemma sqrt2_neq_1 : sqrt 2 <> 1.
Proof.
  intros E. assert (H : sqrt 2 * sqrt 2 = 2) by (apply sqrt_sqrt; lra).
  rewrite E in H. lra.
Qed.

(** C1, as stated, fails: on the advantages 0 and 2 the code divides by
    [sqrt 2 + 1e-5], the population standard deviation would give
    [1 + 1e-5]. *)
Lemma get_advantages_not_population :
  get_advantages (mk_cfg true (2 / 10)) two_step_rollout
  <> spec_standardize (raw_advantages two_step_rollout).
Proof.
  unfold get_advantages, spec_standardize, raw_advantages.
  cbn [mk_cfg use_normalized_advantage negb two_step_rollout returns value_preds
       removelast zip_with sub concat app map].
  intros E. injection E as E _.
  unfold std, spec_population_std, mean, sum, numel, EPS_PPO in E.
  cbn [foldr map length INR] in E.
  replace ((0 - 0 + (2 - 0 + 0)) / (1 + 1)) with 1 in E by lra.
  replace (((0 - 0 - 1) * (0 - 0 - 1) + ((2 - 0 - 1) * (2 - 0 - 1) + 0))
           / (1 + 1 - 1)) with 2 in E by lra.
  replace (((0 - 0 - 1) * (0 - 0 - 1) + ((2 - 0 - 1) * (2 - 0 - 1) + 0))
           / (1 + 1)) with 1 in E by lra.
  rewrite sqrt_1 in E.
  assert (P : 0 <= sqrt 2) by apply sqrt_pos.
  apply sqrt2_neq_1.
  assert (Q : (0 - 0 - 1) / (sqrt 2 + 1 / 100000) * (sqrt 2 + 1 / 100000)
              = 0 - 0 - 1) by (field; lra).
  rewrite E in Q.
  assert (Q' : (0 - 0 - 1) / (1 + 1 / 100000) * (sqrt 2 + 1 / 100000)
               = - (sqrt 2 + 1 / 100000) / (1 + 1 / 100000)) by (field; lra).
  rewrite Q' in Q.
  assert (Q2 : - (sqrt 2 + 1 / 100000) / (1 + 1 / 100000) * (1 + 1 / 100000)
               = - (sqrt 2 + 1 / 100000)) by (field; lra).
  rewrite Q in Q2. lra.
Qed.

(** C5. On the rollout with T = 5, N = 2, returns 10 and value predictions
    8 everywhere, [get_advantages] with normalization returns the all-zero
    tensor of shape (5, 2); no denominator of the computation is zero: the
    ten elements, the nine degrees of freedom, and [std + 1e-5], which is
    1e-5. *)
Theorem constant_rollout_normalizes_to_zero (cfg : Config) :
  use_normalized_advantage cfg = true ->
  get_advantages cfg constant_rollout = replicate 5 [0; 0]
  /\ raw_advantages constant_rollout = replicate 5 [2; 2]
  /\ INR (numel (concat (raw_advantages constant_rollout))) <> 0
  /\ INR (numel (concat (raw_advantages constant_rollout))) - 1 <> 0
  /\ std (concat (raw_advantages constant_rollout)) = 0
  /\ std (concat (raw_advantages constant_rollout)) + EPS_PPO <> 0.
Proof.
  intros Hn. unfold get_advantages. rewrite Hn. cbn [negb].
  assert (Hraw : raw_advantages constant_rollout = replicate 5 [2; 2]).
  { unfold raw_advantages, constant_rollout.
    cbn [returns value_preds replicate removelast zip_with sub].
    replace (10 - 8) with 2 by lra. reflexivity. }
  rewrite Hraw. cbn [replicate concat app].
  assert (Hmean : mean [2; 2; 2; 2; 2; 2; 2; 2; 2; 2] = 2).
  { unfold mean, sum, numel. cbn [foldr length INR]. lra. }
  assert (Hstd : std [2; 2; 2; 2; 2; 2; 2; 2; 2; 2] = 0).
  { unfold std. rewrite Hmean. unfold sum, numel. cbn [map foldr length INR].
    replace (_ / _) with 0 by lra. apply sqrt_0. }
  rewrite Hmean, Hstd. unfold EPS_PPO, numel. cbn [map length INR].
  replace ((2 - 2) / (0 + 1 / 100000)) with 0 by lra.
  repeat split; try reflexivity; lra.
Qed.

Lemma constant_rollout_normalizes_to_zero_witness :
  get_advantages (mk_cfg true (2 / 10)) constant_rollout = replicate 5 [0; 0].
Proof.
  apply (proj1 (constant_rollout_normalizes_to_zero (mk_cfg true (2 / 10))
                  eq_refl)).
Defined.

Lemma clamp1_zero (c : R) : 0 <= c -> clamp1 (- c) c 0 = 0.
Proof.
  intros Hc. unfold clamp1, Rmax, Rmin.
  destruct (Rle_dec 0 (- c)); destruct (Rle_dec _ c); lra.
Qed.

Lemma value_pred_clipped_same (cfg : Config) (v : Tensor.t) :
  0 <= clip_param cfg -> value_pred_clipped cfg v v = v.
Proof.
  intros Hc. unfold value_pred_clipped, add, clamp, sub.
  induction v as [|a v IH]; [reflexivity|].
  cbn [zip_with map]. cbn [zip_with map] in IH. rewrite IH. f_equal.
  replace (a - a) with 0 by lra. rewrite clamp1_zero by exact Hc. lra.
Qed.

Lemma maximum_same (x : Tensor.t) : maximum x x = x.
Proof.
  unfold maximum. induction x as [|a x IH]; [reflexivity|].
  cbn [zip_with]. rewrite IH. f_equal. unfold Rmax. destruct (Rle_dec a a); lra.
Qed.

Lemma pow2_sub_comm (x y : Tensor.t) : pow2 (sub x y) = pow2 (sub y x).
Proof.
  unfold pow2, sub. revert y.
  induction x as [|a x IH]; intros [|b y]; try reflexivity.
  cbn [zip_with map]. rewrite IH. f_equal. lra.
Qed.

(** C4. With a clipping range that is not negative, a minibatch whose
    [value_preds_batch] equals [values] has [value_losses_clipped] equal to
    [value_losses] element by element, and its value loss is the same in
    the clipped branch as in the unclipped one, whichever the trainer uses.
    In general the clipped losses are not point-wise above the unclipped
    ones: for values 1, old predictions 0, returns 0 and a range of 0.2 the
    clipped loss is below. *)
Theorem clipped_value_loss_no_update (cfg : Config)
    (values return_batch : Tensor.t) :
  0 <= clip_param cfg ->
  value_losses_clipped cfg values values return_batch
  = value_losses values return_batch
  /\ clipped_value_loss cfg values values return_batch
     = unclipped_value_loss values return_batch
  /\ value_loss cfg values values return_batch
     = unclipped_value_loss values return_batch * value_loss_coef cfg
  /\ (exists a b,
        value_losses_clipped clip_example [1] [0] [0] = [a]
        /\ value_losses [1] [0] = [b] /\ a < b).
Proof.
  intros Hc.
  assert (E : value_losses_clipped cfg values values return_batch
              = value_losses values return_batch).
  { unfold value_losses_clipped. rewrite value_pred_clipped_same by exact Hc.
    reflexivity. }
  assert (E2 : clipped_value_loss cfg values values return_batch
               = unclipped_value_loss values return_batch).
  { unfold clipped_value_loss, unclipped_value_loss.
    rewrite E, maximum_same. unfold value_losses.
    rewrite (pow2_sub_comm values return_batch). reflexivity. }
  split; [exact E|]. split; [exact E2|]. split.
  - unfold value_loss. rewrite E2.
    destruct (use_clipped_value_loss cfg); reflexivity.
  - eexists _, _. split; [|split].
    + unfold value_losses_clipped, value_pred_clipped, clip_example.
      cbn [sub add clamp pow2 zip_with map mk_cfg clip_param]. reflexivity.
    + cbn. reflexivity.
    + unfold clamp1, Rmax, Rmin.
      destruct (Rle_dec (1 - 0) (- (2 / 10)));
        destruct (Rle_dec _ (2 / 10)); lra.
Qed.

Lemma clipped_value_loss_no_update_witness :
  value_losses_clipped clip_example [1; 3] [1; 3] [0; 5]
  = value_losses [1; 3] [0; 5].
Proof.
  apply (proj1 (clipped_value_loss_no_update clip_example [1; 3] [0; 5]
                  ltac:(simpl; lra))).
Defined.

End Losses.

Section Loop.
Context `{C : Collaborators}.
Local Open Scope R_scope.
Import WDDPPO.

Lemma minibatch_step_eq (cfg : Config) (obs : gmap string Tensor.t)
    (sample : Sample) (acc : Stats) (w : World) :
  let ts := minibatch_terms cfg (ext w) obs sample in
  minibatch_step cfg obs sample acc w
  = (Ok (accumulate acc ts),
     {| ext := stepped (ext w) ts;
        trace := trace w ++ step_events (total_loss ts) |}).
Proof.
  intros ts. unfold minibatch_step, bind, get, call, modify, ret, stepped.
  cbn. fold ts. repeat rewrite <- app_assoc. reflexivity.
Qed.

Lemma world_eta (w : World) : {| ext := ext w; trace := trace w ++ [] |} = w.
Proof. destruct w. cbn. by rewrite app_nil_r. Qed.

Lemma events_of_app (tss1 tss2 : list Terms) :
  events_of (tss1 ++ tss2) = events_of tss1 ++ events_of tss2.
Proof. unfold events_of. apply flat_map_app. Qed.

(** The inner loop of [WDDPPO.update] runs the minibatches of
    [epoch_terms]. *)
Lemma wddppo_epoch_eq (cfg : Config) (xs : list Sample) (acc : Stats)
    (w : World) :
  for_each (fun sample acc => minibatch_step cfg (obs_batch sample) sample acc)
           xs acc w
  = (Ok (foldl accumulate acc (epoch_terms cfg xs (ext w)).1),
     {| ext := (epoch_terms cfg xs (ext w)).2;
        trace := trace w ++ events_of (epoch_terms cfg xs (ext w)).1 |}).
Proof.
  revert acc w. induction xs as [|x xs IH]; intros acc w.
  - cbn. by rewrite world_eta.
  - cbn [for_each epoch_terms]. unfold bind at 1.
    rewrite minibatch_step_eq, IH. cbn [ext trace].
    destruct (epoch_terms cfg xs _) as [tss x']. cbn [fst snd foldl].
    change (events_of (?t :: tss))
      with (step_events (total_loss t) ++ events_of tss).
    by rewrite <- app_assoc.
Qed.

Lemma wddppo_loop_eq (cfg : Config) (rollouts : RolloutStorage) (n : nat)
    (acc : Stats) (w : World) :
  for_range n
    (fun acc =>
       bind get (fun w =>
         for_each
           (fun sample acc => minibatch_step cfg (obs_batch sample) sample acc)
           (recurrent_generator (ext w) rollouts
              (get_advantages cfg rollouts) (num_mini_batch cfg)) acc))
    acc w
  = (Ok (foldl accumulate acc (run_terms cfg rollouts n (ext w)).1),
     {| ext := (run_terms cfg rollouts n (ext w)).2;
        trace := trace w ++ events_of (run_terms cfg rollouts n (ext w)).1 |}).
Proof.
  revert acc w. induction n as [|n IH]; intros acc w.
  - cbn. by rewrite world_eta.
  - cbn [for_range run_terms]. unfold bind at 1. unfold bind at 1.
    unfold get at 1. rewrite wddppo_epoch_eq.
    destruct (epoch_terms cfg _ (ext w)) as [tss1 x1]. cbn [fst snd].
    rewrite IH. cbn [ext trace].
    destruct (run_terms cfg rollouts n x1) as [tss2 x2]. cbn [fst snd].
    by rewrite foldl_app, events_of_app, app_assoc.
Qed.

(** The inner loop of [CWDDPPO.update] runs the minibatches of
    [cw_epoch_terms] and raises what the loader raises. *)
Lemma cwddppo_epoch_eq (cfg : Config) (xs : list Sample) (acc : Stats)
    (w : World) :
  for_each (cw_body cfg) xs acc w
  = (match (cw_epoch_terms cfg xs (ext w)).1.2 with
     | None => Ok (foldl accumulate acc (cw_epoch_terms cfg xs (ext w)).1.1)
     | Some e => Raise e
     end,
     {| ext := (cw_epoch_terms cfg xs (ext w)).2;
        trace := trace w ++ events_of (cw_epoch_terms cfg xs (ext w)).1.1 |}).
Proof.
  revert acc w. induction xs as [|x xs IH]; intros acc w.
  - cbn. by rewrite world_eta.
  - cbn [for_each cw_epoch_terms]. unfold bind at 1. unfold cw_body at 1.
    unfold bind at 1. unfold CWDDPPO.next_negatives at 1.
    destruct (next_diter (ext w)) as [[negs|e] x1].
    + rewrite minibatch_step_eq, IH. cbn [ext trace].
      destruct (cw_epoch_terms cfg xs _) as [[tss stop] x']. cbn [fst snd foldl].
      change (events_of (?t :: tss))
        with (step_events (total_loss t) ++ events_of tss).
      by rewrite <- app_assoc.
    + cbn. by rewrite app_nil_r.
Qed.

Lemma cwddppo_loop_eq (cfg : Config) (rollouts : RolloutStorage) (n : nat)
    (acc : Stats) (w : World) :
  for_range n
    (fun acc =>
       bind get (fun w =>
         for_each (cw_body cfg)
           (recurrent_generator (ext w) rollouts
              (get_advantages cfg rollouts) (num_mini_batch cfg)) acc))
    acc w
  = (match (cw_run_terms cfg rollouts n (ext w)).1.2 with
     | None => Ok (foldl accumulate acc (cw_run_terms cfg rollouts n (ext w)).1.1)
     | Some e => Raise e
     end,
     {| ext := (cw_run_terms cfg rollouts n (ext w)).2;
        trace := trace w
                 ++ events_of (cw_run_terms cfg rollouts n (ext w)).1.1 |}).
Proof.
  revert acc w. induction n as [|n IH]; intros acc w.
  - cbn. by rewrite world_eta.
  - cbn [for_range cw_run_terms]. unfold bind at 1. unfold bind at 1.
    unfold get at 1. rewrite cwddppo_epoch_eq.
    destruct (cw_epoch_terms cfg _ (ext w)) as [[tss1 [e|]] x1]; cbn [fst snd].
    + reflexivity.
    + rewrite IH. cbn [ext trace].
      destruct (cw_run_terms cfg rollouts n x1) as [[tss2 stop] x2].
      cbn [fst snd]. by rewrite foldl_app, events_of_app, app_assoc.
Qed.

Lemma total_cons (f : Terms -> R) (ts : Terms) (tss : list Terms) :
  total f (ts :: tss) = f ts + total f tss.
Proof. reflexivity. Qed.

(** The running sums after the minibatches [tss]. *)
Lemma foldl_accumulate (acc : Stats) (tss : list Terms) :
  foldl accumulate acc tss
  = {| value_loss_epoch := value_loss_epoch acc + total t_value_loss tss;
       action_loss_epoch := action_loss_epoch acc + total t_action_loss tss;
       entropy_loss_epoch := entropy_loss_epoch acc + total t_entropy_loss tss;
       pano_entropy_epoch := pano_entropy_epoch acc + total t_pano_entropy tss;
       offset_entropy_epoch :=
         offset_entropy_epoch acc + total t_offset_entropy tss;
       distance_entropy_epoch :=
         distance_entropy_epoch acc + total t_distance_entropy tss |}.
Proof.
  revert acc. induction tss as [|ts tss IH]; intros acc.
  - destruct acc. unfold total, Tensor.sum. cbn. f_equal; lra.
  - cbn [foldl]. rewrite IH. rewrite !total_cons. unfold accumulate. cbn.
    f_equal; lra.
Qed.

Lemma averages_eq {S} (acc : Stats) (N : Z) (s : S) :
  averages acc N s
  = (if (N =? 0)%Z then Raise ZeroDivisionError
     else Ok (value_loss_epoch acc / IZR N, action_loss_epoch acc / IZR N,
              entropy_loss_epoch acc / IZR N, pano_entropy_epoch acc / IZR N,
              offset_entropy_epoch acc / IZR N,
              distance_entropy_epoch acc / IZR N), s).
Proof.
  unfold averages, py_div, bind, ret, raise. by destruct (N =? 0)%Z.
Qed.

Lemma averages_after {S} (tss : list Terms) (N : Z) (s : S) :
  averages (foldl accumulate zero_stats tss) N s
  = (if (N =? 0)%Z then Raise ZeroDivisionError else Ok (averages_of tss N), s).
Proof.
  rewrite averages_eq, foldl_accumulate. cbn. unfold averages_of.
  rewrite !Rplus_0_l. reflexivity.
Qed.

(** [WDDPPO.update], as a function of the minibatches it runs. *)
Lemma wddppo_update_eq (cfg : Config) (rollouts : RolloutStorage) (w : World) :
  WDDPPO.update cfg rollouts w
  = (if (ppo_epoch cfg * num_mini_batch cfg =? 0)%Z
     then Raise ZeroDivisionError
     else Ok (averages_of
                (run_terms cfg rollouts (Z.to_nat (ppo_epoch cfg)) (ext w)).1
                (ppo_epoch cfg * num_mini_batch cfg)),
     {| ext := (run_terms cfg rollouts (Z.to_nat (ppo_epoch cfg)) (ext w)).2;
        trace :=
          trace w
          ++ events_of
               (run_terms cfg rollouts (Z.to_nat (ppo_epoch cfg)) (ext w)).1 |}).
Proof.
  unfold update. cbv zeta. unfold bind at 1. rewrite wddppo_loop_eq.
  apply averages_after.
Qed.

(** [CWDDPPO.update], as a function of the minibatches it runs. *)
Lemma cwddppo_update_eq (cfg : Config) (rollouts : RolloutStorage) (w : World) :
  CWDDPPO.update cfg rollouts w
  = (match (cw_run_terms cfg rollouts (Z.to_nat (ppo_epoch cfg)) (ext w)).1.2
     with
     | Some e => Raise e
     | None =>
         if (ppo_epoch cfg * num_mini_batch cfg =? 0)%Z
         then Raise ZeroDivisionError
         else Ok (averages_of
                    (cw_run_terms cfg rollouts (Z.to_nat (ppo_epoch cfg))
                                  (ext w)).1.1
                    (ppo_epoch cfg * num_mini_batch cfg))
     end,
     {| ext :=
          (cw_run_terms cfg rollouts (Z.to_nat (ppo_epoch cfg)) (ext w)).2;
        trace :=
          trace w
          ++ events_of
               (cw_run_terms cfg rollouts (Z.to_nat (ppo_epoch cfg))
                             (ext w)).1.1 |}).
Proof.
  unfold CWDDPPO.update. cbv zeta. unfold bind at 1.
  change (for_range (Z.to_nat (ppo_epoch cfg)) _ zero_stats w)
    with (for_range (Z.to_nat (ppo_epoch cfg))
            (fun acc =>
               bind get (fun w =>
                 for_each (cw_body cfg)
                   (recurrent_generator (ext w) rollouts
                      (get_advantages cfg rollouts) (num_mini_batch cfg)) acc))
            zero_stats w).
  rewrite cwddppo_loop_eq.
  destruct (cw_run_terms cfg rollouts _ (ext w)) as [[tss [e|]] x'];
    cbn [fst snd]; [reflexivity|].
  apply averages_after.
Qed.

Lemma epoch_terms_length (cfg : Config) (xs : list Sample) (x : Ext) :
  length (epoch_terms cfg xs x).1 = length xs.
Proof.
  revert x. induction xs as [|s xs IH]; intros x; [done|].
  cbn [epoch_terms]. specialize (IH (stepped x (minibatch_terms cfg x (obs_batch s) s))).
  destruct (epoch_terms cfg xs _) as [tss x']. cbn in *. by rewrite IH.
Qed.

(** With a generator that keeps its contract, every epoch runs
    [num_mini_batch] minibatches. *)
Lemma run_terms_length (cfg : Config) (rollouts : RolloutStorage) (n : nat)
    (x : Ext) :
  generator_contract -> (0 <= num_mini_batch cfg)%Z ->
  length (run_terms cfg rollouts n x).1
  = (n * Z.to_nat (num_mini_batch cfg))%nat.
Proof.
  intros Hg Hm. revert x. induction n as [|n IH]; intros x; [done|].
  cbn [run_terms].
  pose proof (epoch_terms_length cfg
                (recurrent_generator x rollouts (get_advantages cfg rollouts)
                                     (num_mini_batch cfg)) x) as H1.
  rewrite Hg in H1 by exact Hm.
  destruct (epoch_terms cfg _ x) as [tss1 x1]. specialize (IH x1).
  destruct (run_terms cfg rollouts n x1) as [tss2 x2]. cbn [fst] in *.
  rewrite length_app, H1, IH. lia.
Qed.




(** A loader that raises at the first call stops [CWDDPPO.update] before
    any call of the optimizer or of a hook. *)
Lemma cw_update_loader_raises (cfg : Config) (rollouts : RolloutStorage)
    (w : World) (e : exn) (x' : Ext) :
  generator_contract ->
  (0 < ppo_epoch cfg)%Z -> (0 < num_mini_batch cfg)%Z ->
  next_diter (ext w) = (Raise e, x') ->
  CWDDPPO.update cfg rollouts w = (Raise e, {| ext := x'; trace := trace w |}).
Proof.
  intros Hg He Hm Hn. rewrite cwddppo_update_eq.
  destruct (Z.to_nat (ppo_epoch cfg)) as [|n] eqn:En; [lia|].
  cbn [cw_run_terms].
  pose proof (Hg (ext w) rollouts (get_advantages cfg rollouts)
                 (num_mini_batch cfg) ltac:(lia)) as Hl.
  destruct (recurrent_generator (ext w) rollouts _ _) as [|s gen];
    [cbn in Hl; lia|].
  cbn [cw_epoch_terms]. rewrite Hn. cbn. by rewrite app_nil_r.
Qed.

End Loop.

Section Update.
Context `{C : Collaborators}.
Local Open Scope R_scope.
Import Tensor WDDPPO.

(** C2. In every minibatch the loss handed to [backward] is
    [value_loss + action_loss + offset_loss - entropy_loss], and the calls
    are exactly: zero_grad, before_backward, backward, after_backward,
    before_step, optimizer step, after_step. With a generator that yields
    [num_mini_batch] samples each epoch, the trace of [WDDPPO.update] is
    that sequence once for each of its [ppo_epoch * num_mini_batch]
    minibatches in turn, whatever the loss terms are. [CWDDPPO.update] of a
    trainer as [CWDDPPO.__init__] builds it makes none of these calls when
    there is a minibatch to run: it raises TypeError at [next(self.diter)]
    in the first one, and the world is as it was. *)
Theorem update_calls_in_order (cfg : Config) (rollouts : RolloutStorage)
    (w : World) (wb : @World (CWDDPPO.__init__ C)) :
  generator_contract ->
  (forall obs sample acc w0,
     let ts := minibatch_terms cfg (ext w0) obs sample in
     let loss := t_value_loss ts + t_action_loss ts + t_offset_loss ts
                 - t_entropy_loss ts in
     exists w1,
       minibatch_step cfg obs sample acc w0 = (Ok (accumulate acc ts), w1)
       /\ trace w1
          = trace w0 ++ [ZeroGrad; BeforeBackward loss; Backward loss;
                         AfterBackward loss; BeforeStep; OptimizerStep;
                         AfterStep])
  /\ ((0 <= ppo_epoch cfg)%Z -> (0 <= num_mini_batch cfg)%Z ->
      let tss :=
        (run_terms cfg rollouts (Z.to_nat (ppo_epoch cfg)) (ext w)).1 in
      length tss = Z.to_nat (ppo_epoch cfg * num_mini_batch cfg)
      /\ exists r w',
           WDDPPO.update cfg rollouts w = (r, w')
           /\ trace w' = trace w ++ events_of tss)
  /\ ((0 < ppo_epoch cfg)%Z -> (0 < num_mini_batch cfg)%Z ->
      @CWDDPPO.update (CWDDPPO.__init__ C) cfg rollouts wb
      = (Raise TypeError, wb)).
Proof.
  intros Hg. split; [|split].
  - intros obs sample acc w0 ts loss. eexists. split.
    + apply minibatch_step_eq.
    + reflexivity.
  - intros He Hm tss. split.
    + unfold tss. rewrite run_terms_length by done.
      rewrite Z2Nat.inj_mul by done. reflexivity.
    + eexists _, _. split; [apply wddppo_update_eq|]. reflexivity.
  - intros He Hm.
    rewrite (@cw_update_loader_raises (CWDDPPO.__init__ C) cfg rollouts wb
               TypeError (ext wb) Hg He Hm eq_refl).
    by destruct wb.
Qed.

Lemma l1_loss_zeros (x a : Tensor.t) :
  length x = length a -> l1_loss x (zeros_like a) = mean (map Rabs x).
Proof.
  intros Hl. unfold l1_loss. f_equal. f_equal. unfold sub, zeros_like.
  revert a Hl. induction x as [|b x IH]; intros [|c a] Hl; try done.
  cbn. rewrite IH by (cbn in Hl; lia). f_equal. f_equal. lra.
Qed.

(** C3. For a minibatch whose action batch has no ["offset"] entry the
    offset term is 0 and the loss handed to the hooks and to [backward] is
    [value_loss + action_loss - entropy_loss]. When the entry is present
    the term is [offset_regularize_coef] times [l1_loss] of the network's
    continuous decoding of the offset action against zeros, that is, times
    the mean absolute value of the decoding when it has the shape of the
    action. *)
Theorem offset_term (cfg : Config) (obs : gmap string Tensor.t)
    (sample : Sample) (acc : Stats) (w : World) :
  let ts := minibatch_terms cfg (ext w) obs sample in
  (actions_batch sample !! "offset"%string = None ->
     t_offset_loss ts = 0
     /\ total_loss ts = t_value_loss ts + t_action_loss ts - t_entropy_loss ts
     /\ exists w',
          minibatch_step cfg obs sample acc w = (Ok (accumulate acc ts), w')
          /\ trace w'
             = trace w ++ step_events (t_value_loss ts + t_action_loss ts
                                       - t_entropy_loss ts))
  /\ (forall a, actions_batch sample !! "offset"%string = Some a ->
        t_offset_loss ts
        = offset_regularize_coef cfg
          * l1_loss (offset_to_continuous (ext w) a) (zeros_like a)
        /\ (length (offset_to_continuous (ext w) a) = length a ->
            t_offset_loss ts
            = offset_regularize_coef cfg
              * mean (map Rabs (offset_to_continuous (ext w) a)))).
Proof.
  intros ts.
  assert (Ho : t_offset_loss ts = offset_loss cfg (ext w) (actions_batch sample)).
  { unfold ts, minibatch_terms. by destruct (evaluate_actions _ _ _ _ _ _) as [[? ?] ?]. }
  split.
  - intros Hn.
    assert (H0 : t_offset_loss ts = 0).
    { rewrite Ho. unfold offset_loss. by rewrite Hn. }
    assert (Ht : total_loss ts
                 = t_value_loss ts + t_action_loss ts - t_entropy_loss ts).
    { unfold total_loss. rewrite H0. lra. }
    split; [exact H0|]. split; [exact Ht|].
    eexists. split; [apply minibatch_step_eq|]. cbn [trace]. fold ts.
    by rewrite Ht.
  - intros a Ha.
    assert (H1 : t_offset_loss ts = offset_regularize_coef cfg
          * l1_loss (offset_to_continuous (ext w) a) (zeros_like a)).
    { rewrite Ho. unfold offset_loss. by rewrite Ha. }
    split; [exact H1|]. intros Hl. rewrite H1. by rewrite l1_loss_zeros.
Qed.


End Update.

Lemma still_generator_contract : @generator_contract still_collaborators.
Proof. intros x r a n _. apply length_replicate. Qed.

Lemma update_calls_in_order_witness :
  (exists r w',
     @WDDPPO.update still_collaborators (mk_cfg true (2 / 10)) two_step_rollout
       still_world = (r, w')
     /\ length (trace w') = 28%nat)
  /\ @CWDDPPO.update (CWDDPPO.__init__ still_collaborators)
       (mk_cfg true (2 / 10)) two_step_rollout built_world
     = (Raise TypeError, built_world).
Proof.
  destruct (@update_calls_in_order still_collaborators (mk_cfg true (2 / 10))
              two_step_rollout still_world built_world
              still_generator_contract) as (_ & Hw & Hcw).
  split.
  - destruct (Hw ltac:(simpl; lia) ltac:(simpl; lia)) as (Hl & r & w' & E & Ht).
    exists r, w'. split; [exact E|]. rewrite Ht. reflexivity.
  - apply Hcw; simpl; lia.
Defined.

Lemma offset_term_witness :
  t_offset_loss
    (@WDDPPO.minibatch_terms still_collaborators (mk_cfg true (2 / 10)) tt ∅
                             empty_sample) = 0%R.
Proof.
  apply (proj1 (@offset_term still_collaborators (mk_cfg true (2 / 10)) ∅
                  empty_sample WDDPPO.zero_stats still_world)).
  reflexivity.
Defined.



Section Shuffle.
Context {A : Type}.
Implicit Types (x l : list A) (g : random.state).

Lemma swap_length x i j : length (random.swap x i j) = length x.
Proof.
  unfold random.swap. destruct (x !! i), (x !! j); try done.
  by rewrite !length_insert.
Qed.

Lemma swap_Permutation x i j : random.swap x i j ≡ₚ x.
Proof.
  unfold random.swap.
  destruct (x !! i) as [a|] eqn:Hi; [|done].
  destruct (x !! j) as [b|] eqn:Hj; [|done].
  apply Permutation_inj. split; [by rewrite !length_insert|].
  exists (fun k => if decide (k = j) then i
                   else if decide (k = i) then j else k).
  split.
  - intros k1 k2. repeat case_decide; intros; subst; congruence.
  - intros k. pose proof (lookup_lt_Some _ _ _ Hi).
    pose proof (lookup_lt_Some _ _ _ Hj).
    destruct (decide (k = j)) as [->|Hkj].
    + rewrite list_lookup_insert_eq by (by rewrite length_insert). done.
    + rewrite list_lookup_insert_ne by done.
      destruct (decide (k = i)) as [->|Hki].
      * by rewrite list_lookup_insert_eq.
      * by rewrite list_lookup_insert_ne.
Qed.

Lemma shuffle_from_Permutation i x g : (random.shuffle_from i x g).1 ≡ₚ x.
Proof.
  revert x g. induction i as [|i IH]; intros x g; [done|].
  cbn [random.shuffle_from].
  destruct (random._randbelow (S (S i)) g) as [j g'].
  rewrite IH. apply swap_Permutation.
Qed.

Lemma shuffle_Permutation x g :
  exists x' g', random.shuffle x g = (Ok x', g') /\ x' ≡ₚ x.
Proof.
  unfold random.shuffle.
  pose proof (shuffle_from_Permutation (length x - 1) x g) as Hp.
  destruct (random.shuffle_from (length x - 1) x g) as [x' g'].
  by exists x', g'.
Qed.

Lemma swap_lookup_target x (i j : nat) a b :
  x !! i = Some a -> x !! j = Some b -> (j <= i)%nat ->
  random.swap x i j !! i = Some b.
Proof.
  intros Hi Hj Hle. unfold random.swap. rewrite Hi, Hj.
  pose proof (lookup_lt_Some _ _ _ Hi).
  destruct (decide (j = i)) as [->|Hne].
  - rewrite list_lookup_insert_eq by (by rewrite length_insert). congruence.
  - rewrite list_lookup_insert_ne by done. by rewrite list_lookup_insert_eq.
Qed.

Lemma swap_drop x (i j : nat) :
  (j <= i)%nat -> drop (S i) (random.swap x i j) = drop (S i) x.
Proof.
  intros Hle. unfold random.swap.
  destruct (x !! i), (x !! j); try done.
  by rewrite !drop_insert_lt by lia.
Qed.

Lemma prefix_Permutation x t (n : nat) :
  x ≡ₚ t -> drop n x = drop n t -> take n x ≡ₚ take n t.
Proof.
  intros Hp Hd. apply (Permutation_app_inv_r (drop n t)).
  rewrite <- Hd at 1. by rewrite !take_drop.
Qed.

(** Every arrangement of the first [i + 1] elements is the outcome of the
    loop from [i] for some draws. *)
Lemma shuffle_from_reaches (i : nat) : forall x t,
  x ≡ₚ t -> (i < length x)%nat -> drop (S i) x = drop (S i) t ->
  exists g g', random.shuffle_from i x g = (t, g').
Proof.
  induction i as [|i IH]; intros x t Hp Hi Hd.
  - exists [], []. cbn. f_equal.
    pose proof (prefix_Permutation x t 1 Hp Hd) as H1.
    pose proof (Permutation_length Hp) as Hl.
    destruct x as [|a x]; [cbn in Hi; lia|]. destruct t as [|b t]; [done|].
    cbn in H1, Hd. rewrite !drop_0 in Hd.
    apply Permutation_singleton_inj in H1. congruence.
  - pose proof (Permutation_length Hp) as Hl.
    destruct (lookup_lt_is_Some_2 t (S i) ltac:(lia)) as [b Hb].
    destruct (lookup_lt_is_Some_2 x (S i) Hi) as [a Ha].
    assert (Hin : b ∈ take (S (S i)) x).
    { rewrite (prefix_Permutation x t _ Hp Hd).
      apply elem_of_take. exists (S i). split; [done|lia]. }
    apply elem_of_take in Hin as (j & Hj & Hlt).
    set (x' := random.swap x (S i) j).
    assert (Hx'i : x' !! S i = Some b)
      by (apply (swap_lookup_target x (S i) j a b); [done|done|lia]).
    assert (Hx'd : drop (S (S i)) x' = drop (S (S i)) t)
      by (unfold x'; rewrite swap_drop by lia; done).
    destruct (IH x' t) as (g0 & g' & E).
    + unfold x'. by rewrite swap_Permutation.
    + unfold x'. rewrite swap_length. lia.
    + rewrite (drop_S x' b (S i) Hx'i), (drop_S t b (S i) Hb). by rewrite Hx'd.
    + exists (j :: g0), g'. cbn [random.shuffle_from random._randbelow].
      rewrite Nat.mod_small by lia. exact E.
Qed.

Lemma shuffle_reaches x t :
  x ≡ₚ t -> exists g g', random.shuffle x g = (Ok t, g').
Proof.
  intros Hp. unfold random.shuffle.
  destruct x as [|a x].
  - apply Permutation_nil_l in Hp. subst t. by exists [], [].
  - pose proof (Permutation_length Hp) as Hl.
    destruct (shuffle_from_reaches (length (a :: x) - 1) (a :: x) t Hp)
      as (g & g' & E).
    + cbn. lia.
    + rewrite !drop_ge; [done| |]; cbn in *; lia.
    + exists g, g'. by rewrite E.
Qed.

Lemma concat_Permutation (l1 l2 : list (list A)) :
  l1 ≡ₚ l2 -> concat l1 ≡ₚ concat l2.
Proof.
  induction 1 as [|b l1 l2 _ IH|b c l|l1 l2 l3 _ IH1 _ IH2]; cbn.
  - done.
  - by rewrite IH.
  - rewrite !app_assoc. by rewrite (Permutation_app_comm b c).
  - by rewrite IH1.
Qed.

(** The blocks of [lst] put back together are [lst]. *)
Lemma concat_chunks l (n m : nat) :
  concat ((fun k => take n (drop (k * n) l)) <$> seq 0 m) = take (m * n) l.
Proof.
  induction m as [|m IH]; [done|].
  rewrite seq_S, fmap_app, concat_app, IH. cbn [fmap list_fmap concat].
  rewrite app_nil_r, Nat.add_0_l. rewrite take_take_drop. f_equal. lia.
Qed.

Lemma range_step_count_covers (len n : nat) :
  (0 < n)%nat ->
  (len <= (if Nat.ltb 0 len then (len - 1) / n + 1 else 0) * n)%nat.
Proof.
  intros Hn. destruct (Nat.ltb_spec 0 len) as [Hl|Hl]; [|lia].
  pose proof (Nat.div_mod_eq (len - 1) n) as E.
  pose proof (Nat.mod_upper_bound (len - 1) n ltac:(lia)) as B.
  nia.
Qed.

Lemma blocks_concat l (block_size : Z) :
  (0 < block_size)%Z ->
  exists bs, blocks l block_size = Ok bs /\ concat bs = l.
Proof.
  intros Hb. unfold blocks.
  destruct (Z.eqb_spec block_size 0) as [|_]; [lia|].
  destruct (Z.ltb_spec block_size 0) as [|_]; [lia|].
  eexists. split; [reflexivity|].
  unfold range_step. rewrite <- list_fmap_compose.
  change ((fun i => take (Z.to_nat block_size) (drop i l)) ∘ _)
    with (fun k => take (Z.to_nat block_size) (drop (k * Z.to_nat block_size) l)).
  rewrite concat_chunks. apply take_ge, range_step_count_covers. lia.
Qed.

Lemma take_1_drop l (i : nat) :
  take 1 (drop i l) = match l !! i with Some a => [a] | None => [] end.
Proof.
  revert i. induction l as [|a l IH]; intros [|i]; cbn; try done.
Qed.

Lemma blocks_of_one l : blocks l 1 = Ok ((fun a => [a]) <$> l).
Proof.
  unfold blocks. cbn [Z.eqb Z.ltb Z.compare]. f_equal.
  change (Z.to_nat 1) with 1%nat. unfold range_step.
  rewrite <- list_fmap_compose. apply list_eq. intros i.
  rewrite !list_lookup_fmap.
  assert (Hc : (if Nat.ltb 0 (length l) then (length l - 1) / 1 + 1 else 0)%nat
               = length l).
  { destruct (Nat.ltb_spec 0 (length l)); [rewrite Nat.div_1_r|]; lia. }
  rewrite Hc. destruct (l !! i) as [a|] eqn:Hi.
  - rewrite (proj2 (lookup_seq 0 (length l) i i)).
    + cbn. rewrite Nat.mul_1_r, take_1_drop. by rewrite Hi.
    + split; [done|]. by eapply lookup_lt_Some.
  - apply lookup_ge_None in Hi.
    rewrite (proj2 (lookup_ge_None _ _)); [done|]. by rewrite length_seq.
Qed.

Lemma blocks_single l (block_size : Z) :
  (0 < block_size)%Z -> (Z.of_nat (length l) <= block_size)%Z ->
  blocks l block_size = Ok (match l with [] => [] | _ => [l] end).
Proof.
  intros Hb Hl. unfold blocks.
  destruct (Z.eqb_spec block_size 0) as [|_]; [lia|].
  destruct (Z.ltb_spec block_size 0) as [|_]; [lia|].
  f_equal. unfold range_step. destruct l as [|a l]; [done|].
  change (Nat.ltb 0 (length (a :: l))) with true. cbn [length] in *.
  assert (Hs : (S (length l) - 1 < Z.to_nat block_size)%nat) by lia.
  rewrite (Nat.div_small _ _ Hs).
  cbn -[Z.to_nat take]. f_equal. apply take_ge. cbn [length]. lia.
Qed.

End Shuffle.

Section ShuffleMap.
Context {A B : Type} (f : A -> B).

Lemma swap_fmap (x : list A) i j :
  random.swap (f <$> x) i j = f <$> random.swap x i j.
Proof.
  unfold random.swap. rewrite !list_lookup_fmap.
  destruct (x !! i), (x !! j); cbn; try done.
  by rewrite !list_fmap_insert.
Qed.

Lemma shuffle_from_fmap i (x : list A) g :
  random.shuffle_from i (f <$> x) g
  = (f <$> (random.shuffle_from i x g).1, (random.shuffle_from i x g).2).
Proof.
  revert x g. induction i as [|i IH]; intros x g; [done|].
  cbn [random.shuffle_from].
  destruct (random._randbelow (S (S i)) g) as [j g'].
  by rewrite swap_fmap, IH.
Qed.

End ShuffleMap.

Lemma concat_singletons {A} (l : list A) : concat ((fun a => [a]) <$> l) = l.
Proof. induction l as [|a l IH]; cbn; [done|by rewrite IH]. Qed.

Section BlockShuffle.
Context {A : Type}.
Implicit Types (lst : list A) (g : random.state).

Lemma block_shuffle_Permutation lst (block_size : Z) g :
  (0 < block_size)%Z ->
  exists out g', _block_shuffle lst block_size g = (Ok out, g') /\ out ≡ₚ lst.
Proof.
  intros Hb. destruct (blocks_concat lst block_size Hb) as (bs & Eb & Hc).
  destruct (shuffle_Permutation bs g) as (bs' & g' & Es & Hp).
  exists (concat bs'), g'. unfold _block_shuffle. rewrite Eb, Es.
  split; [done|]. rewrite <- Hc. by apply concat_Permutation.
Qed.

Lemma block_shuffle_one lst g :
  _block_shuffle lst 1 g = random.shuffle lst g.
Proof.
  unfold _block_shuffle. rewrite blocks_of_one.
  unfold random.shuffle. rewrite length_fmap, shuffle_from_fmap.
  destruct (random.shuffle_from (length lst - 1) lst g) as [x' g'].
  cbn. by rewrite concat_singletons.
Qed.

Lemma block_shuffle_single lst (block_size : Z) g :
  (0 < block_size)%Z -> (Z.of_nat (length lst) <= block_size)%Z ->
  _block_shuffle lst block_size g = (Ok lst, g).
Proof.
  intros Hb Hl. unfold _block_shuffle.
  rewrite (blocks_single lst block_size Hb Hl).
  destruct lst as [|a l]; [done|]. cbn. by rewrite app_nil_r.
Qed.

End BlockShuffle.

(** C6. For every list, every positive block size and every state of the
    generator, [_block_shuffle] returns a permutation of its input. With
    block size 1 it is [random.shuffle] of the list itself, draw for draw,
    and every permutation of the list is its outcome for some draws. With a
    block size of at least the length of the list it returns the list as
    it is, and draws nothing. *)
Theorem block_shuffle_permutation {A} (lst : list A) (block_size : Z)
    (g : random.state) :
  (0 < block_size)%Z ->
  (exists out g', _block_shuffle lst block_size g = (Ok out, g') /\ out ≡ₚ lst)
  /\ (block_size = 1%Z ->
      _block_shuffle lst block_size g = random.shuffle lst g
      /\ forall t, lst ≡ₚ t ->
           exists g0 g', _block_shuffle lst block_size g0 = (Ok t, g'))
  /\ ((Z.of_nat (length lst) <= block_size)%Z ->
      _block_shuffle lst block_size g = (Ok lst, g)).
Proof.
  intros Hb. split; [|split].
  - by apply block_shuffle_Permutation.
  - intros ->. split; [apply block_shuffle_one|].
    intros t Ht. destruct (shuffle_reaches lst t Ht) as (g0 & g' & E).
    exists g0, g'. by rewrite block_shuffle_one.
  - intros Hl. by apply block_shuffle_single.
Qed.

Lemma block_shuffle_permutation_witness :
  exists out g',
    _block_shuffle [1; 2; 3; 4; 5]%Z 2 [3; 1; 4]%nat = (Ok out, g')
    /\ out ≡ₚ [1; 2; 3; 4; 5]%Z.
Proof.
  apply (proj1 (block_shuffle_permutation [1; 2; 3; 4; 5]%Z 2 [3; 1; 4]%nat
                  ltac:(lia))).
Defined.

Section Shards.
Local Open Scope Z_scope.
Import FramesDataset Stream.
Import FramesDataset.

Lemma ceil_div_bounds (L W : Z) :
  0 <= L -> 0 < W ->
  0 <= ceil_div L W /\ L <= W * ceil_div L W < L + W.
Proof.
  intros HL HW. unfold ceil_div.
  pose proof (Z.div_mod (- L) W ltac:(lia)) as E.
  pose proof (Z.mod_pos_bound (- L) W HW) as B.
  nia.
Qed.

Lemma shards_prefix (L W : Z) (n : nat) :
  0 <= L -> 0 < W ->
  concat (shard_range L W <$> seqZ 0 (Z.of_nat n))
  = seqZ 0 (Z.min (Z.of_nat n * ceil_div L W) L).
Proof.
  intros HL HW. destruct (ceil_div_bounds L W HL HW) as [Hp _].
  induction n as [|n IH].
  - cbn. by rewrite Z.min_l by lia.
  - rewrite seqZ_S, fmap_app, concat_app, IH. cbn [fmap list_fmap concat].
    rewrite app_nil_r, Z.add_0_l. unfold shard_range, shard, range.
    set (p := ceil_div L W) in *.
    destruct (Z_le_gt_dec L (Z.of_nat n * p)) as [Hge|Hlt].
    + rewrite (seqZ_nil (p * Z.of_nat n)) by lia.
      rewrite app_nil_r. f_equal. lia.
    + rewrite (Z.min_l (Z.of_nat n * p)) by lia.
      replace (p * Z.of_nat n) with (0 + Z.of_nat n * p) by lia.
      rewrite <- seqZ_app by lia. f_equal. lia.
Qed.

(** C7. For every number of records [L] and every positive number of
    workers [W], worker [w] owns [w * c, min ((w + 1) * c, L)) with
    [c = ceil (L / W)], and these ranges, taken for w = 0 to W - 1 in
    order, put end to end are exactly 0, 1, ..., L - 1: every index below
    [L] lies in the range of one worker and of no other, whether or not
    [W] divides [L]. *)
Theorem shards_partition (L W : Z) :
  0 <= L -> 0 < W ->
  (forall w, shard L (Some (w, W))
             = (w * ceil_div L W, Z.min ((w + 1) * ceil_div L W) L))
  /\ (forall a b, 0 < b -> (ceil_div a b - 1) * b < a <= ceil_div a b * b)
  /\ concat ((fun w => range (shard L (Some (w, W))).1
                             (shard L (Some (w, W))).2) <$> seqZ 0 W)
     = seqZ 0 L
  /\ (forall i, 0 <= i < L ->
        exists w, 0 <= w < W
                  /\ (shard L (Some (w, W))).1 <= i < (shard L (Some (w, W))).2
                  /\ forall w', 0 <= w' < W ->
                       (shard L (Some (w', W))).1 <= i
                                                   < (shard L (Some (w', W))).2 ->
                       w' = w).
Proof.
  intros HL HW. destruct (ceil_div_bounds L W HL HW) as [Hp [Hc1 Hc2]].
  split; [|split; [|split]].
  - intros w. unfold shard. f_equal; [|f_equal]; lia.
  - intros a b Hb. unfold ceil_div.
    pose proof (Z.div_mod (- a) b ltac:(lia)) as E.
    pose proof (Z.mod_pos_bound (- a) b Hb) as B. nia.
  - pose proof (shards_prefix L W (Z.to_nat W) HL HW) as E.
    rewrite Z2Nat.id in E by lia.
    rewrite Z.min_r in E by lia. rewrite <- E. reflexivity.
  - intros i Hi. unfold shard. cbn [fst snd].
    set (p := ceil_div L W) in *.
    assert (Hppos : 0 < p) by nia.
    exists (i / p).
    pose proof (Z.div_mod i p ltac:(lia)) as E.
    pose proof (Z.mod_pos_bound i p Hppos) as B.
    split; [|split].
    + split; [apply Z.div_pos; lia|].
      apply Z.div_lt_upper_bound; [lia|]. nia.
    + nia.
    + intros w' Hw' Hin. 
      assert (w' <= i / p) by (apply Z.div_le_lower_bound; lia).
      assert (i / p < w' + 1) by (apply Z.div_lt_upper_bound; lia).
      lia.
Qed.

Lemma shards_partition_witness :
  concat ((fun w => range (shard 23 (Some (w, 3))).1
                          (shard 23 (Some (w, 3))).2) <$> seqZ 0 3)
  = seqZ 0 23.
Proof.
  apply (proj1 (proj2 (proj2 (shards_partition 23 3 ltac:(lia) ltac:(lia))))).
Defined.

End Shards.

Section Dataset.
Local Open Scope Z_scope.
Import FramesDataset Stream.
Lemma same_config_refl w : same_config w w.
Proof. by repeat split. Qed.

Lemma same_config_trans w1 w2 w3 :
  same_config w1 w2 -> same_config w2 w3 -> same_config w1 w3.
Proof.
  intros (?&?&?&?&?&?) (?&?&?&?&?&?). repeat split; congruence.
Qed.

Lemma list_pop_snoc {A} (l : list A) (x : A) : list_pop (l ++ [x]) = Some (x, l).
Proof. unfold list_pop. by rewrite last_snoc, removelast_last. Qed.

Lemma reshape_pure {S} (new : list nat) (a : ndarray) (s : S) :
  reshape new a s = ((reshape new a tt).1, s).
Proof. unfold reshape. by destruct (Nat.eqb _ _). Qed.

Lemma rows_pure {S} (a : ndarray) (s : S) : rows a s = ((rows a tt).1, s).
Proof. unfold rows. by destruct (shape a). Qed.

(** Taking a record apart neither reads nor writes the state. *)
Lemma pairs_of_pure {S} (o : Observation) (s : S) :
  pairs_of o s = ((pairs_of o tt).1, s).
Proof.
  unfold pairs_of.
  destruct (shape (rgb_features o)) as [|n [|c [|d1 [|d2 [|d3 [|]]]]]]; try done.
  unfold bind.
  rewrite (reshape_pure _ _ s), (reshape_pure _ _ tt).
  destruct (reshape _ (rgb_features o) tt).1 as [r|]; [|done]. cbn [fst snd].
  rewrite (reshape_pure _ (depth_features o) s),
    (reshape_pure _ (depth_features o) tt).
  destruct (reshape _ (depth_features o) tt).1 as [d|]; [|done]. cbn [fst snd].
  rewrite (rows_pure r s), (rows_pure r tt).
  destruct (rows r tt).1 as [rs|]; [|done]. cbn [fst snd].
  rewrite (rows_pure d s), (rows_pure d tt).
  by destruct (rows d tt).1.
Qed.

Lemma pairs_of_Ok {S} (o : Observation) (s s' : S) (ps : list pair) :
  pairs_of o s = (Ok ps, s') -> s' = s /\ (pairs_of o tt).1 = Ok ps.
Proof. rewrite pairs_of_pure. by intros [= -> ->]. Qed.

Lemma size_of_rows (n c : nat) (rest : list nat) :
  size_of ((n * c)%nat :: rest) = size_of (n :: c :: rest).
Proof. cbn [size_of foldr]. by rewrite Nat.mul_assoc. Qed.

Lemma zip_fmap_same {A B X} (f : X -> A) (g : X -> B) (l : list X) :
  zip (f <$> l) (g <$> l) = (fun k => (f k, g k)) <$> l.
Proof. induction l as [|x l IH]; [done|]. cbn. by rewrite IH. Qed.

Lemma pairs_of_rows (o : Observation) (n c d1 d2 d3 : nat) :
  shape (rgb_features o) = [n; c; d1; d2; d3] ->
  size_of (shape (depth_features o))
  = (n * c * size_of (drop 2 (shape (depth_features o))))%nat ->
  forall S (s : S),
    pairs_of o s
    = (Ok ((fun k => (row [d1; d2; d3] (rgb_features o) k,
                      row (drop 2 (shape (depth_features o)))
                          (depth_features o) k))
             <$> seq 0 (n * c)), s).
Proof.
  intros Hsh Hsz S s. unfold pairs_of.
  rewrite Hsh. cbn [drop]. unfold bind at 1. unfold reshape at 1.
  rewrite Hsh, size_of_rows, Nat.eqb_refl. unfold ret at 1.
  unfold bind at 1. unfold reshape at 1.
  assert (Hd : size_of ((n * c)%nat :: drop 2 (shape (depth_features o)))
               = size_of (shape (depth_features o))).
  { rewrite Hsz. reflexivity. }
  rewrite Hd, Nat.eqb_refl. unfold ret at 1.
  unfold bind at 1. unfold rows at 1. cbn [shape]. unfold ret at 1.
  unfold bind at 1. unfold rows at 1. cbn [shape]. unfold ret at 1.
  unfold ret. f_equal. f_equal. apply zip_fmap_same.
Qed.

Lemma pairs_of_refuses (o : Observation) :
  List.length (shape (rgb_features o)) <> 5%nat
  \/ (exists n c d1 d2 d3,
        shape (rgb_features o) = [n; c; d1; d2; d3]
        /\ size_of (shape (depth_features o))
           <> (n * c * size_of (drop 2 (shape (depth_features o))))%nat) ->
  forall S (s : S), pairs_of o s = (Raise ValueError, s).
Proof.
  intros [Hlen|(n & c & d1 & d2 & d3 & Hsh & Hsz)] S s.
  - unfold pairs_of.
    destruct (shape (rgb_features o)) as [|n [|c [|d1 [|d2 [|d3 [|]]]]]];
      try done.
  - unfold pairs_of. rewrite Hsh. cbn [drop].
    unfold bind at 1. unfold reshape at 1.
    rewrite Hsh, size_of_rows, Nat.eqb_refl. unfold ret at 1.
    unfold bind at 1. unfold reshape at 1.
    destruct (Nat.eqb_spec
                (size_of ((n * c)%nat :: drop 2 (shape (depth_features o))))
                (size_of (shape (depth_features o)))) as [E|_]; [|done].
    exfalso. apply Hsz. rewrite <- E. reflexivity.
Qed.

Lemma pairs_at_loadable store i o ps :
  store !! i = Some o -> (forall S (s : S), pairs_of o s = (Ok ps, s)) ->
  pairs_at store i = ps.
Proof. intros Ho Hps. unfold pairs_at. by rewrite Ho, Hps. Qed.

(** A loadable record is one that [_load_next] takes apart into a pair at
    least. *)
Lemma loadable_pairs store i :
  loadable store i ->
  exists o ps, store !! i = Some o
               /\ (forall S (s : S), pairs_of o s = (Ok ps, s)) /\ ps <> [].
Proof.
  intros (o & n & c & d1 & d2 & d3 & Ho & Hsh & Hsz & Hpos).
  eexists o, _. split; [exact Ho|]. split.
  - intros S s. by apply pairs_of_rows.
  - destruct (n * c)%nat; [lia|done].
Qed.

Lemma loadable_pairs_at store i : loadable store i <-> pairs_at store i <> [].
Proof.
  split.
  - intros (o & ps & Ho & Hps & Hne)%loadable_pairs.
    by rewrite (pairs_at_loadable _ _ _ _ Ho Hps).
  - unfold pairs_at. intros H. destruct (store !! i) as [o|] eqn:Ho; [|done].
    destruct (shape (rgb_features o)) as [|n [|c [|d1 [|d2 [|d3 [|]]]]]] eqn:Hsh;
      try (rewrite (pairs_of_refuses o) in H; [done|left; by rewrite Hsh]).
    destruct (decide (size_of (shape (depth_features o))
                      = (n * c * size_of (drop 2 (shape (depth_features o))))%nat))
      as [Hsz|Hsz].
    + exists o, n, c, d1, d2, d3. do 3 (split; [done|]).
      rewrite (pairs_of_rows o n c d1 d2 d3 Hsh Hsz) in H. cbn [fst] in H.
      destruct (n * c)%nat; [done|lia].
    + rewrite (pairs_of_refuses o) in H; [done|].
      right. by exists n, c, d1, d2, d3.
Qed.

Lemma load_loop_spec (todo : list Z) : forall acc w,
  load_ordering (self w) = Some (reverse todo) ->
  (forall i, i ∈ todo -> loadable (lmdb w) i) ->
  exists f rest w',
    load_loop (List.length todo) acc w
    = (Ok (acc ++ concat (pairs_at (lmdb w) <$> f)), w')
    /\ todo = f ++ rest
    /\ load_ordering (self w') = Some (reverse rest)
    /\ reads w' = reads w ++ f
    /\ _preload (self w') = _preload (self w)
    /\ same_config w w'
    /\ (Z.of_nat (List.length acc) < preload_size (self w) ->
        todo <> [] -> f <> []).
Proof.
  induction todo as [|i todo IH]; intros acc w Hq Hs.
  - exists [], [], w. cbn. rewrite !app_nil_r.
    repeat split; try done.
  - cbn [List.length load_loop]. enter get.
    destruct (Z.ltb_spec (Z.of_nat (List.length acc)) (preload_size (self w)))
      as [Hlt|Hge].
    + enter attr. rewrite Hq.
      rewrite reverse_cons, list_pop_snoc.
      destruct (loadable_pairs (lmdb w) i) as (o & ps & Ho & Hps & _);
        [apply Hs; by left|].
      unfold bind at 1. unfold set_load_ordering, set_self, modify at 1.
      enter txn_get. cbn [lmdb self]. rewrite Ho.
      unfold bind at 1. rewrite Hps.
      match goal with |- context [load_loop _ _ ?w1] => set (w1' := w1) end.
      destruct (IH (acc ++ ps) w1') as (f & rest & w' & E & Ht & Hq' & Hr & Hp & Hc & Hne).
      { done. }
      { intros j Hj. apply Hs. by right. }
      exists (i :: f), rest, w'. split.
      { rewrite E. cbn [fmap list_fmap concat].
        rewrite (pairs_at_loadable _ _ _ _ Ho Hps). by rewrite <- !app_assoc. }
      split; [by rewrite Ht|]. split; [done|]. split.
      { rewrite Hr. cbn. by rewrite <- app_assoc. }
      split; [done|]. split; [|done].
      destruct Hc as (?&?&?&?&?&?). by repeat split.
    + exists [], (i :: todo), w. cbn. rewrite app_nil_r.
      repeat split; try done; [by rewrite app_nil_r | intros; lia].
Qed.

Lemma new_load_ordering_spec w s e :
  start (self w) = Some s -> end_ (self w) = Some e ->
  0 < preload_size (self w) ->
  exists P w',
    new_load_ordering w = (Ok tt, w')
    /\ P ≡ₚ range s e
    /\ (Z.of_nat (List.length (range s e)) <= preload_size (self w) ->
        P = range s e)
    /\ load_ordering (self w') = Some (reverse P)
    /\ reads w' = reads w
    /\ _preload (self w') = _preload (self w)
    /\ same_config w w'.
Proof.
  intros Hs He Hp.
  destruct (block_shuffle_Permutation (range s e) _ (rng w) Hp)
    as (P & g' & E & HP).
  exists P. eexists. unfold new_load_ordering.
  enter get.
  enter attr. rewrite Hs.
  enter attr. rewrite He.
  enter with_rng. rewrite E.
  split; [reflexivity|]. split; [done|]. split.
  { intros Hsmall. rewrite (block_shuffle_single _ _ _ Hp Hsmall) in E.
    congruence. }
  cbn. by repeat split.
Qed.

Lemma append_loop_spec (np : list pair) (order : list nat) : forall w,
  Forall (fun i => (i < List.length np)%nat) order ->
  exists xs w',
    for_each (fun idx (_ : unit) =>
                bind (index np idx) (fun x =>
                bind get (fun w => set_preload (_preload (self w) ++ [x]))))
             order tt w = (Ok tt, w')
    /\ List.length xs = List.length order
    /\ _preload (self w') = _preload (self w) ++ xs
    /\ load_ordering (self w') = load_ordering (self w)
    /\ reads w' = reads w
    /\ same_config w w'.
Proof.
  induction order as [|i order IH]; intros w Hi.
  - exists [], w. cbn. rewrite app_nil_r. split; [done|].
    repeat split; done.
  - apply Forall_cons in Hi as [Hi Hrest].
    destruct (lookup_lt_is_Some_2 np i Hi) as [x Hx].
    cbn [for_each]. enter bind.
    unfold index at 1. rewrite Hx. unfold ret at 1. enter get. unfold set_preload, set_self, modify at 1.
    match goal with |- context [for_each _ _ _ ?w1] => set (w1' := w1) end.
    destruct (IH w1' Hrest) as (xs & w' & E & Hl & Hp & Hq & Hr & Hc).
    exists (x :: xs), w'. split; [exact E|]. split; [cbn; lia|].
    split. { rewrite Hp. cbn. by rewrite <- app_assoc. }
    split; [done|]. split; [done|].
    destruct Hc as (?&?&?&?&?&?). by repeat split.
Qed.

Lemma ready_same_config s e w w' :
  ready s e w -> same_config w w' -> ready s e w'.
Proof.
  intros [Hs0 He0 Hse Hb0 Hp0 Hst] (Hl&Hp&Hb&_&Hs&He). split.
  - congruence.
  - congruence.
  - done.
  - by rewrite Hb.
  - by rewrite Hp, Hb.
  - by rewrite Hl.
Qed.

Lemma range_nonempty s e : s < e -> range s e <> [].
Proof.
  intros H. unfold range. rewrite seqZ_cons by lia. done.
Qed.

Lemma elem_of_range s e i : i ∈ range s e <-> s <= i < e.
Proof. unfold range. rewrite elem_of_seqZ. lia. Qed.

Lemma refill_spec s e w q :
  ready s e w ->
  load_ordering (self w) = Some q ->
  (forall i, i ∈ q -> s <= i < e) ->
  exists f q' w',
    refill w = (Ok tt, w')
    /\ same_config w w'
    /\ _preload (self w') <> []
    /\ reads w' = reads w ++ f
    /\ load_ordering (self w') = Some q'
    /\ advance s e (preload_size (self w)) q f q'.
Proof.
  intros Hr Hq Hin. destruct Hr as [Hs He Hse Hb Hp Hst].
  assert (Hps : 0 < preload_size (self w)) by lia.
  unfold refill. enter get.
  enter attr. rewrite Hq.
  (* the queue the loop starts from *)
  assert (exists todo w1,
    (if Nat.eqb (List.length q) 0 then new_load_ordering else ret tt) w
    = (Ok tt, w1)
    /\ same_config w w1 /\ reads w1 = reads w
    /\ _preload (self w1) = _preload (self w)
    /\ load_ordering (self w1) = Some (reverse todo)
    /\ todo <> [] /\ (forall i, i ∈ todo -> s <= i < e)
    /\ forall f rest, todo = f ++ rest -> f <> [] ->
          advance s e (preload_size (self w)) q f (reverse rest))
    as (todo & w1 & E1 & Hc1 & Hr1 & Hp1 & Hq1 & Hne & Hin1 & Hadv).
  { destruct q as [|i q].
    - cbn [List.length Nat.eqb].
      destruct (new_load_ordering_spec w s e Hs He Hps)
        as (P & w1 & E & HP & Hsm & Hq1 & Hr1 & Hp1 & Hc1).
      exists P, w1. do 5 (split; [done|]). split; [|split].
      + intros ->. apply Permutation_nil_l in HP.
        by apply (range_nonempty s e Hse).
      + intros j Hj. rewrite HP in Hj. by apply elem_of_range in Hj.
      + intros f rest -> Hf. by eapply advance_new_pass.
    - exists (reverse (i :: q)), w. cbn [List.length Nat.eqb].
      rewrite reverse_involutive.
      split; [done|]. split; [apply same_config_refl|].
      do 3 (split; [done|]). split; [|split].
      + intros H%(f_equal List.length). rewrite length_reverse in H. done.
      + intros j Hj. rewrite elem_of_reverse in Hj. by apply Hin.
      + intros f rest Ht Hf. by apply advance_within. }
  unfold bind at 1. rewrite E1.
  enter attr. rewrite Hq1.
  rewrite length_reverse.
  destruct (load_loop_spec todo [] w1 Hq1)
    as (f & rest & w2 & E2 & Ht & Hq2 & Hr2 & Hp2 & Hc2 & Hf).
  { intros i Hi. destruct Hc1 as (-> & _). apply Hst, Hin1, Hi. }
  unfold bind at 1. rewrite E2. cbn [app].
  set (np := concat (pairs_at (lmdb w1) <$> f)).
  assert (Hfne : f <> []).
  { apply Hf; [|done]. destruct Hc1 as (_ & -> & _). cbn. lia. }
  assert (Hnp : np <> []).
  { unfold np. destruct f as [|i f]; [done|]. cbn.
    assert (Hi : pairs_at (lmdb w1) i <> []).
    { apply loadable_pairs_at.
      destruct Hc1 as (-> & _). apply Hst, Hin1. rewrite Ht. by left. }
    destruct (pairs_at (lmdb w1) i); done. }
  destruct (shuffle_Permutation (seq 0 (List.length np)) (rng w2))
    as (so & g3 & E3 & Hso).
  enter with_rng. rewrite E3.
  match goal with |- context [bind (with_rng _) _ ?w3] => set (w3' := w3) end.
  destruct (block_shuffle_Permutation so (batch_size (self w)) (rng w3') Hb)
    as (order & g4 & E4 & Horder).
  enter with_rng. rewrite E4.
  match goal with |- context [for_each _ _ _ ?w4] => set (w4' := w4) end.
  destruct (append_loop_spec np order w4') as (xs & w5 & E5 & Hl5 & Hp5 & Hq5 & Hr5 & Hc5).
  { rewrite Horder, Hso. apply Forall_forall. intros i Hi.
    apply elem_of_seq in Hi. lia. }
  exists f, (reverse rest), w5. split; [exact E5|].
  split.
  { eapply same_config_trans; [exact Hc1|].
    eapply same_config_trans; [exact Hc2|].
    destruct Hc5 as (?&?&?&?&?&?). by repeat split. }
  split.
  { rewrite Hp5. intros Happ. apply app_eq_nil in Happ as [_ ->].
    apply Hnp. apply nil_length_inv.
    assert (Hlen : List.length order = List.length np).
    { rewrite (Permutation_length Horder), (Permutation_length Hso).
      apply length_seq. }
    rewrite <- Hlen, <- Hl5. done. }
  split. { rewrite Hr5. cbn. by rewrite Hr2, Hr1. }
  split. { rewrite Hq5. cbn. exact Hq2. }
  by apply Hadv.
Qed.

Lemma load_next_spec s e w q :
  ready s e w ->
  load_ordering (self w) = Some q ->
  (forall i, i ∈ q -> s <= i < e) ->
  exists x q' w',
    _load_next w = (Ok x, w')
    /\ same_config w w'
    /\ load_ordering (self w') = Some q'
    /\ ((reads w' = reads w /\ q' = q
         /\ S (List.length (_preload (self w')))
            = List.length (_preload (self w)))
        \/ (Z.of_nat (List.length (_preload (self w))) < batch_size (self w)
            /\ exists f, reads w' = reads w ++ f
                         /\ advance s e (preload_size (self w)) q f q')).
Proof.
  intros Hr Hq Hin. unfold _load_next.
  enter get.
  assert (Hpop : forall w1 : World, _preload (self w1) <> [] ->
    exists x w2,
      bind get (fun w => match list_pop (_preload (self w)) with
                         | Some (x, p) => bind (set_preload p) (fun _ => ret x)
                         | None => raise IndexError
                         end) w1 = (Ok x, w2)
      /\ same_config w1 w2 /\ reads w2 = reads w1
      /\ load_ordering (self w2) = load_ordering (self w1)
      /\ S (List.length (_preload (self w2))) = List.length (_preload (self w1))).
  { intros w1 Hne. destruct (exists_last Hne) as (p & x & Hp).
    exists x. eexists. enter get.
    rewrite Hp, list_pop_snoc. split; [reflexivity|]. cbn.
    split; [by repeat split|]. split; [done|]. split; [done|].
    rewrite length_app. cbn. lia. }
  destruct (Z.ltb_spec (Z.of_nat (List.length (_preload (self w))))
                       (batch_size (self w))) as [Hlt|Hge].
  - destruct (refill_spec s e w q Hr Hq Hin)
      as (f & q' & w1 & E & Hc & Hne & Hrd & Hq' & Hadv).
    unfold bind at 1. rewrite E.
    destruct (Hpop w1 Hne) as (x & w2 & E2 & Hc2 & Hr2 & Hq2 & Hl2).
    exists x, q', w2. split; [exact E2|].
    split; [by eapply same_config_trans|]. split; [congruence|].
    right. split; [done|]. exists f. split; [congruence|done].
  - enter ret.
    destruct (Hpop w) as (x & w2 & E2 & Hc2 & Hr2 & Hq2 & Hl2).
    { destruct Hr. destruct (_preload (self w)); [cbn in Hge; lia|done]. }
    exists x, q, w2. split; [exact E2|]. split; [done|].
    split; [congruence|]. left. done.
Qed.

Lemma next_tracking s e w done cur :
  tracking s e w done cur ->
  exists x w' done' cur',
    __next__ w = (Ok x, w')
    /\ same_config w w'
    /\ tracking s e w' done' cur'
    /\ ((done' = done /\ cur' = cur
         /\ S (List.length (_preload (self w')))
            = List.length (_preload (self w)))
        \/ (Z.of_nat (List.length (_preload (self w))) < batch_size (self w)
            /\ ((done' = done /\ exists f, f <> [] /\ cur' = cur ++ f)
                \/ (done' = done ++ [cur] /\ cur' <> []
                    /\ pass_ok s e (preload_size (self w)) cur)))).
Proof.
  intros [Hr Hrd Hd (q & Hq & Hpass)].
  assert (Hin : forall i, i ∈ q -> s <= i < e).
  { intros i Hi. apply elem_of_range. rewrite <- (proj1 Hpass).
    apply elem_of_app. right. by apply elem_of_reverse. }
  destruct (load_next_spec s e w q Hr Hq Hin)
    as (x & q' & w' & E & Hc & Hq' & Hcase).
  assert (Hps : preload_size (self w') = preload_size (self w))
    by (by destruct Hc as (_ & -> & _)).
  assert (Hr' : ready s e w') by (by eapply ready_same_config).
  destruct Hcase as [(Hrd' & -> & Hl)|(Hlt & f & Hrd' & Hadv)].
  - exists x, w', done, cur. split; [exact E|]. split; [exact Hc|]. split.
    + split; [done|congruence|by rewrite Hps|].
      exists q. by rewrite Hps.
    + left. done.
  - inversion Hadv as [f0 rest Hne Hrev Hf|P f0 rest Hnil HP Hsm HPf Hf]; subst.
    + exists x, w', done, (cur ++ f). split; [exact E|]. split; [exact Hc|].
      split.
      * split; [done| |by rewrite Hps|].
        { rewrite Hrd', Hrd. by rewrite app_assoc. }
        exists (reverse rest). split; [done|]. rewrite Hps.
        rewrite reverse_involutive, <- app_assoc, <- Hrev. done.
      * right. split; [done|]. left. split; [done|]. by exists f.
    + rewrite app_nil_r in Hpass.
      exists x, w', (done ++ [cur]), f. split; [exact E|]. split; [exact Hc|].
      split.
      * split; [done| |rewrite Hps|].
        { rewrite Hrd', Hrd, concat_app. cbn. by rewrite app_nil_r. }
        { apply Forall_app. split; [done|]. by apply Forall_singleton. }
        exists (reverse rest). split; [done|]. rewrite Hps.
        rewrite reverse_involutive. done.
      * right. split; [done|]. right. done.
Qed.

End Dataset.

Section Iteration.
Local Open Scope Z_scope.
Import FramesDataset Stream.

Lemma run_0 w : run 0 w w.
Proof. by exists []. Qed.

Lemma run_S n x w w1 w' :
  __next__ w = (Ok x, w1) -> run n w1 w' -> run (S n) w w'.
Proof.
  intros E (items & E' & Hl). exists (x :: items).
  cbn [take_items]. unfold bind at 1. rewrite E.
  unfold bind at 1. rewrite E'. split; [done|]. cbn. lia.
Qed.

Lemma run_app n m w w1 w2 : run n w w1 -> run m w1 w2 -> run (n + m) w w2.
Proof.
  revert w. induction n as [|n IH]; intros w (items & E & Hl) Hm.
  - cbn in E. injection E as <- <-. done.
  - cbn [take_items] in E. unfold bind at 1 in E.
    destruct (__next__ w) as [[x|err] wa] eqn:Ex; [|done].
    unfold bind at 1 in E.
    destruct (take_items n wa) as [[xs|err] wb] eqn:Exs; [|done].
    injection E as <- <-. cbn [Nat.add]. eapply run_S; [exact Ex|].
    apply IH; [|done]. exists xs. split; [done|]. cbn in Hl. lia.
Qed.

(** Iteration never stops: every call yields, and the reads stay whole
    passes followed by a part of one. *)
Lemma run_tracking s e n : forall w done cur,
  tracking s e w done cur ->
  exists w' done' cur', run n w w' /\ tracking s e w' done' cur'.
Proof.
  induction n as [|n IH]; intros w done cur Ht.
  - exists w, done, cur. split; [apply run_0|done].
  - destruct (next_tracking s e w done cur Ht)
      as (x & w1 & done1 & cur1 & E & _ & Ht1 & _).
    destruct (IH w1 done1 cur1 Ht1) as (w' & done' & cur' & Hrun & Ht').
    exists w', done', cur'. split; [by eapply run_S|done].
Qed.

(** From any point, some calls later the store has been read again. *)
Lemma run_until_refill s e (len : nat) : forall w done cur,
  List.length (_preload (self w)) = len ->
  tracking s e w done cur ->
  exists n w' done' cur',
    run n w w' /\ same_config w w' /\ tracking s e w' done' cur'
    /\ ((done' = done /\ exists f, f <> [] /\ cur' = cur ++ f)
        \/ (done' = done ++ [cur] /\ cur' <> []
            /\ pass_ok s e (preload_size (self w)) cur)).
Proof.
  induction len as [len IH] using lt_wf_ind. intros w done cur Hlen Ht.
  destruct (next_tracking s e w done cur Ht)
    as (x & w1 & done1 & cur1 & E & Hc & Ht1 & [(-> & -> & Hl)|(_ & Hadv)]).
  - destruct (IH (List.length (_preload (self w1))) ltac:(lia) w1 done cur
                 eq_refl Ht1)
      as (n & w' & done' & cur' & Hrun & Hc' & Ht' & Hadv).
    exists (S n), w', done', cur'. split; [by eapply run_S|].
    split; [by eapply same_config_trans|]. split; [done|].
    assert (Hps : preload_size (self w1) = preload_size (self w))
      by (by destruct Hc as (_ & -> & _)).
    by rewrite <- Hps.
  - exists 1%nat, w1, done1, cur1. split; [|done].
    eapply run_S; [exact E|apply run_0].
Qed.

Lemma length_range s e : List.length (range s e) = Z.to_nat (e - s).
Proof. apply length_seqZ. Qed.

Lemma pass_length s e ps P :
  pass_ok s e ps P -> List.length P = Z.to_nat (e - s).
Proof. intros [HP _]. by rewrite (Permutation_length HP), length_range. Qed.

Lemma passes_length s e ps (passes : list (list Z)) :
  Forall (pass_ok s e ps) passes ->
  List.length (concat passes) = (List.length passes * Z.to_nat (e - s))%nat.
Proof.
  induction 1 as [|P passes HP _ IH]; [done|].
  cbn. rewrite length_app, IH, (pass_length _ _ _ _ HP). lia.
Qed.

Lemma within_bound (a k r c c' : nat) :
  (a * r + c < k * r -> c' <= r -> a * r + c' <= k * r)%nat.
Proof.
  intros H Hc. destruct (le_lt_dec k a) as [Hk|Hk].
  - pose proof (Nat.mul_le_mono_r _ _ r Hk). lia.
  - pose proof (Nat.mul_le_mono_r _ _ r Hk). lia.
Qed.

(** Whole passes, as many as wanted, are reached. *)
Lemma run_to_passes s e (k : nat) (d : nat) : forall w done cur,
  tracking s e w done cur ->
  (List.length (reads w) + d = k * Z.to_nat (e - s))%nat ->
  exists n w' passes,
    run n w w' /\ same_config w w'
    /\ reads w' = concat passes
    /\ List.length passes = k
    /\ Forall (pass_ok s e (preload_size (self w))) passes.
Proof.
  induction d as [d IH] using lt_wf_ind. intros w done cur Ht Hd.
  pose proof Ht as [Hr Hrd Hdone (q & Hq & Hpass)].
  assert (Hrpos : (0 < Z.to_nat (e - s))%nat) by (destruct Hr; lia).
  pose proof (passes_length _ _ _ _ Hdone) as Hdl.
  pose proof (pass_length _ _ _ _ Hpass) as Hcl.
  rewrite length_app, length_reverse in Hcl.
  assert (HL : List.length (reads w)
               = (List.length done * Z.to_nat (e - s) + List.length cur)%nat).
  { by rewrite Hrd, length_app, Hdl. }
  destruct (Nat.eq_dec d 0%nat) as [->|Hdpos].
  - (* the reads are whole passes already *)
    destruct (Nat.eq_dec (List.length cur) 0%nat) as [Hc0|Hc0].
    + apply nil_length_inv in Hc0. subst cur.
      exists 0%nat, w, done. split; [apply run_0|].
      split; [apply same_config_refl|].
      split; [by rewrite Hrd, app_nil_r|]. split; [|done].
      cbn in HL. nia.
    + assert (Hfull : List.length cur = Z.to_nat (e - s)).
      { destruct (le_lt_dec k (List.length done)) as [Hk|Hk].
        - pose proof (Nat.mul_le_mono_r _ _ (Z.to_nat (e - s)) Hk). lia.
        - pose proof (Nat.mul_le_mono_r _ _ (Z.to_nat (e - s)) Hk). lia. }
      assert (q = []) by (apply nil_length_inv; lia). subst q.
      rewrite app_nil_r in Hpass.
      exists 0%nat, w, (done ++ [cur]). split; [apply run_0|].
      split; [apply same_config_refl|]. split.
      { rewrite Hrd, concat_app. cbn. by rewrite app_nil_r. }
      split; [rewrite length_app; cbn; nia|].
      apply Forall_app. split; [done|]. by apply Forall_singleton.
  - destruct (run_until_refill s e _ w done cur eq_refl Ht)
      as (n & w1 & done1 & cur1 & Hrun & Hc & Ht1 & Hadv).
    assert (Hps : preload_size (self w1) = preload_size (self w))
      by (by destruct Hc as (_ & -> & _)).
    pose proof Ht1 as [_ Hrd1 Hdone1 (q1 & Hq1 & Hpass1)].
    pose proof (passes_length _ _ _ _ Hdone1) as Hdl1.
    pose proof (pass_length _ _ _ _ Hpass1) as Hcl1.
    rewrite length_app, length_reverse in Hcl1.
    assert (HL1 : List.length (reads w1)
               = (List.length done1 * Z.to_nat (e - s) + List.length cur1)%nat).
    { by rewrite Hrd1, length_app, Hdl1. }
    assert (Hgrow : (List.length (reads w) < List.length (reads w1)
                     <= k * Z.to_nat (e - s))%nat).
    { destruct Hadv as [(-> & f & Hf & ->)|(-> & Hne & Hfull)].
      - rewrite length_app in HL1, Hcl1.
        assert (0 < List.length f)%nat by (destruct f; [done|cbn; lia]).
        split; [lia|]. rewrite HL1.
        apply (within_bound _ _ _ (List.length cur)); lia.
      - apply pass_length in Hfull. rewrite length_app in HL1.
        cbn [List.length] in HL1.
        assert (0 < List.length cur1)%nat by (destruct cur1; [done|cbn; lia]).
        split; [lia|]. rewrite HL1.
        apply (within_bound _ _ _ 0%nat); lia. }
    destruct (IH (k * Z.to_nat (e - s) - List.length (reads w1))%nat
                 ltac:(lia) w1 done1 cur1 Ht1 ltac:(lia))
      as (m & w' & passes & Hrun' & Hc' & Hrd' & Hlen & Hall).
    exists (n + m)%nat, w', passes. split; [by eapply run_app|].
    split; [by eapply same_config_trans|]. split; [done|]. split; [done|].
    by rewrite <- Hps.
Qed.

Lemma count_in_range s e i :
  s <= i < e -> count_occ Z.eq_dec (range s e) i = 1%nat.
Proof.
  intros Hi.
  assert (Hin : In i (range s e)).
  { apply list_elem_of_In, elem_of_range, Hi. }
  apply (count_occ_In Z.eq_dec) in Hin.
  pose proof (proj1 (NoDup_count_occ Z.eq_dec (range s e))
                (proj1 (NoDup_ListNoDup _) (NoDup_seqZ _ _)) i).
  lia.
Qed.

Lemma count_in_passes s e ps (passes : list (list Z)) i :
  Forall (pass_ok s e ps) passes -> s <= i < e ->
  count_occ Z.eq_dec (concat passes) i = List.length passes.
Proof.
  intros Hall Hi. induction Hall as [|P passes [HP _] _ IH]; [done|].
  cbn. rewrite count_occ_app, IH.
  rewrite (proj1 (Permutation_count_occ Z.eq_dec P (range s e)) HP i).
  by rewrite count_in_range.
Qed.

(** [__iter__] on a fresh worker whose shard is not empty. *)
Lemma iter_tracking (store : gmap Z Observation) (bs : Z) g
    (worker_info : option (Z * Z)) s e :
  0 < bs ->
  (forall id W, worker_info = Some (id, W) -> W <> 0) ->
  shard (Z.of_nat (size store)) worker_info = (s, e) ->
  s < e ->
  (forall i, s <= i < e -> loadable store i) ->
  exists w,
    __iter__ worker_info (fresh store bs g) = (Ok tt, w)
    /\ preload_size (self w) = bs * 10
    /\ tracking s e w [] [].
Proof.
  intros Hb Hwi Hsh Hse Hst. unfold __iter__.
  enter get.
  assert (Hguard : (match worker_info with
           | Some (_, 0) => raise ZeroDivisionError
           | _ => ret tt
           end) (fresh store bs g) = (Ok tt, fresh store bs g)).
  { destruct worker_info as [[id W]|]; [|done].
    specialize (Hwi id W eq_refl). by destruct W. }
  unfold bind at 1. rewrite Hguard.
  change (length (self (fresh store bs g))) with (Z.of_nat (size store)).
  rewrite Hsh. unfold bind at 1.
  unfold set_shard, set_self, modify at 1.
  match goal with |- context [new_load_ordering ?w1] => set (w1' := w1) end.
  destruct (new_load_ordering_spec w1' s e eq_refl eq_refl ltac:(cbn; lia))
    as (P & w & E & HP & Hsm & Hq & Hrd & Hpre & Hc).
  exists w. split; [exact E|].
  assert (Hps : preload_size (self w) = bs * 10)
    by (by destruct Hc as (_ & -> & _)).
  split; [exact Hps|].
  assert (Hr1 : ready s e w1') by (by split).
  split.
  - by eapply ready_same_config.
  - by rewrite Hrd.
  - done.
  - exists (reverse P). split; [done|]. rewrite reverse_involutive.
    split; [done|]. by rewrite Hps.
Qed.

End Iteration.

Section Passes.
Local Open Scope Z_scope.
Import FramesDataset Stream.

Lemma holds_pairs_spec store s e :
  holds_pairs store (range s e) = true ->
  forall i, s <= i < e -> loadable store i.
Proof.
  unfold holds_pairs. rewrite forallb_forall. intros H i Hi.
  apply loadable_pairs_at.
  specialize (H i). rewrite <- list_elem_of_In, elem_of_range in H.
  specialize (H Hi). by destruct (pairs_at store i).
Qed.

(** C9, as the code has it. For a worker whose shard is not empty, with a
    positive batch size and a store in which every record of the shard is
    loadable (it is there, its rgb array has five dimensions (n, c, ...),
    its depth array has the size of [n * c] rows, and [n * c] is not 0):
    after [__iter__], any number of calls of [__next__] each yield a pair,
    and the load ordering queue is there after them, refilled in place
    whenever it ran out. *)
Theorem stream_never_ends (store : gmap Z Observation) (bs : Z)
    (g : random.state) (worker_info : option (Z * Z)) (s e : Z) (n : nat) :
  0 < bs ->
  (forall id W, worker_info = Some (id, W) -> W <> 0) ->
  shard (Z.of_nat (size store)) worker_info = (s, e) ->
  s < e ->
  (forall i, s <= i < e -> loadable store i) ->
  exists items w',
    bind (__iter__ worker_info) (fun _ => take_items n) (fresh store bs g)
    = (Ok items, w')
    /\ List.length items = n
    /\ exists q, load_ordering (self w') = Some q.
Proof.
  intros Hb Hwi Hsh Hse Hst.
  destruct (iter_tracking store bs g worker_info s e Hb Hwi Hsh Hse Hst)
    as (w1 & E1 & _ & Ht1).
  destruct (run_tracking s e n w1 [] [] Ht1)
    as (w' & done & cur & (items & E & Hl) & Ht').
  exists items, w'. unfold bind. rewrite E1. split; [exact E|].
  split; [exact Hl|]. destruct Ht' as [_ _ _ (q & Hq & _)]. by exists q.
Qed.

(** C9, as stated, fails on an empty shard: with 4 records and 3 workers
    the last worker owns [4, 4), and its first [__next__] raises
    IndexError. *)
Lemma empty_shard_raises :
  shard (Z.of_nat (size (store_of 4))) (Some (2, 3)) = (4, 4)
  /\ (bind (__iter__ (Some (2, 3))) (fun _ => __next__)
           (fresh (store_of 4) 1 [])).1
     = Raise IndexError.
Proof. split; vm_compute; reflexivity. Qed.

(** C8. For a worker as in C9 (a shard that is not empty, a positive batch
    size, every record of the shard loadable): at any time the keys read
    from the store are whole passes, each a permutation of the shard's indices, followed by a
    part of a pass that the queue completes to such a permutation; for
    every [k] the run reaches a point where exactly [k] whole passes have
    been read, every index then read [k] times; and for a shard of 23
    records with [preload_size] 30 (batch size 3) two passes read the
    indices in order twice over: each index once in a pass, twice in
    all. *)
Theorem passes_visit_each_record_once (store : gmap Z Observation) (bs : Z)
    (g : random.state) (worker_info : option (Z * Z)) (s e : Z) :
  0 < bs ->
  (forall id W, worker_info = Some (id, W) -> W <> 0) ->
  shard (Z.of_nat (size store)) worker_info = (s, e) ->
  s < e ->
  (forall i, s <= i < e -> loadable store i) ->
  (forall n, exists items w' done cur q,
      bind (__iter__ worker_info) (fun _ => take_items n) (fresh store bs g)
      = (Ok items, w')
      /\ reads w' = concat done ++ cur
      /\ Forall (fun P => P ≡ₚ range s e) done
      /\ load_ordering (self w') = Some q
      /\ cur ++ reverse q ≡ₚ range s e)
  /\ (forall k, exists n items w' passes,
        bind (__iter__ worker_info) (fun _ => take_items n) (fresh store bs g)
        = (Ok items, w')
        /\ reads w' = concat passes
        /\ List.length passes = k
        /\ Forall (fun P => P ≡ₚ range s e) passes
        /\ forall i, s <= i < e -> count_occ Z.eq_dec (reads w') i = k)
  /\ (e - s = 23 -> bs = 3 ->
      exists n items w',
        bind (__iter__ worker_info) (fun _ => take_items n) (fresh store bs g)
        = (Ok items, w')
        /\ preload_size (self w') = 30
        /\ reads w' = range s e ++ range s e
        /\ forall i, s <= i < e ->
             count_occ Z.eq_dec (range s e) i = 1%nat
             /\ count_occ Z.eq_dec (reads w') i = 2%nat).
Proof.
  intros Hb Hwi Hsh Hse Hst.
  destruct (iter_tracking store bs g worker_info s e Hb Hwi Hsh Hse Hst)
    as (w1 & E1 & Hps1 & Ht1).
  assert (Hweak : forall ps (l : list (list Z)),
            Forall (pass_ok s e ps) l -> Forall (fun P => P ≡ₚ range s e) l).
  { intros ps l H. eapply Forall_impl; [exact H|]. by intros P [HP _]. }
  assert (Hk : forall k, exists n items w' passes,
        bind (__iter__ worker_info) (fun _ => take_items n) (fresh store bs g)
        = (Ok items, w')
        /\ same_config w1 w'
        /\ reads w' = concat passes
        /\ List.length passes = k
        /\ Forall (pass_ok s e (bs * 10)) passes).
  { intros k.
    destruct (run_to_passes s e k (k * Z.to_nat (e - s)) w1 [] [] Ht1)
      as (n & w' & passes & (items & E & _) & Hc & Hrd & Hlen & Hall).
    { destruct Ht1 as [_ -> _ _]. cbn. lia. }
    exists n, items, w', passes. unfold bind. rewrite E1.
    rewrite Hps1 in Hall. done. }
  split; [|split].
  - intros n.
    destruct (run_tracking s e n w1 [] [] Ht1)
      as (w' & done & cur & (items & E & Hl) & Ht').
    destruct Ht' as [_ Hrd Hdone (q & Hq & [Hpass _])].
    exists items, w', done, cur, q. unfold bind. rewrite E1.
    split; [exact E|]. split; [exact Hrd|]. split; [by eapply Hweak|].
    done.
  - intros k. destruct (Hk k) as (n & items & w' & passes & E & _ & Hrd & Hlen & Hall).
    exists n, items, w', passes. split; [exact E|]. split; [exact Hrd|].
    split; [exact Hlen|]. split; [by eapply Hweak|].
    intros i Hi. rewrite Hrd, <- Hlen. by eapply count_in_passes.
  - intros H23 ->.
    destruct (Hk 2%nat) as (n & items & w' & passes & E & Hc & Hrd & Hlen & Hall).
    exists n, items, w'. split; [exact E|].
    split. { destruct Hc as (_ & -> & _). by rewrite Hps1. }
    assert (Hpasses : passes = [range s e; range s e]).
    { destruct passes as [|P1 [|P2 [|P3 passes]]]; try done.
      apply Forall_cons in Hall as [[_ H1] Hall].
      apply Forall_cons in Hall as [[_ H2] _].
      rewrite H1, H2; [done| |]; rewrite length_range; lia. }
    split. { rewrite Hrd, Hpasses. cbn. by rewrite app_nil_r. }
    intros i Hi. split; [by apply count_in_range|].
    rewrite Hrd, (count_in_passes s e _ passes i Hall Hi). by rewrite Hlen.
Qed.

Lemma passes_visit_each_record_once_witness :
  exists n items w',
    bind (__iter__ None) (fun _ => take_items n) (fresh (store_of 23) 3 [])
    = (Ok items, w')
    /\ preload_size (self w') = 30
    /\ reads w' = range 0 23 ++ range 0 23
    /\ forall i, 0 <= i < 23 ->
         count_occ Z.eq_dec (range 0 23) i = 1%nat
         /\ count_occ Z.eq_dec (reads w') i = 2%nat.
Proof.
  refine (proj2 (proj2 (passes_visit_each_record_once (store_of 23) 3 [] None
                          0 23 _ _ _ _ _)) _ _).
  - lia.
  - intros id W H. discriminate H.
  - vm_compute. reflexivity.
  - lia.
  - apply holds_pairs_spec. vm_compute. reflexivity.
  - reflexivity.
  - reflexivity.
Defined.

Lemma stream_never_ends_witness :
  exists items w',
    bind (__iter__ (Some (1, 3))) (fun _ => take_items 7)
         (fresh (store_of 23) 3 [2%nat; 7%nat; 1%nat])
    = (Ok items, w')
    /\ List.length items = 7%nat
    /\ exists q, load_ordering (self w') = Some q.
Proof.
  refine (stream_never_ends (store_of 23) 3 _ (Some (1, 3)) 8 16 7 _ _ _ _ _).
  - lia.
  - intros id W [= _ <-]. lia.
  - vm_compute. reflexivity.
  - lia.
  - apply holds_pairs_spec. vm_compute. reflexivity.
Defined.

End Passes.

(** * Further properties *)

Section Advantages.
Local Open Scope R_scope.
Import Tensor WDDPPO.

Lemma std_nonneg (x : Tensor.t) : 0 <= std x.
Proof. apply sqrt_pos. Qed.

Lemma normalizer_pos (x : Tensor.t) : 0 < std x + EPS_PPO.
Proof. pose proof (std_nonneg x). unfold EPS_PPO. lra. Qed.

Lemma removelast_length {A} (l : list A) :
  length (removelast l) = (length l - 1)%nat.
Proof. induction l as [|a [|b l] IH]; cbn in *; lia. Qed.

Lemma removelast_map {A B} (f : A -> B) (l : list A) :
  removelast (map f l) = map f (removelast l).
Proof. induction l as [|a [|b l] IH]; cbn in *; [done|done|by rewrite IH]. Qed.

(** X1. The advantages do not depend on the last step of the rollout (the
    bootstrap value): replacing the last row of [returns] and of
    [value_preds] changes nothing. With as many rows of returns as of
    value predictions, the result has one row fewer. *)
Theorem get_advantages_ignores_last_step (cfg : Config)
    (rollouts : RolloutStorage) (ret vp : Tensor.t) :
  get_advantages cfg (with_last_step ret vp rollouts)
  = get_advantages cfg rollouts
  /\ (length (returns rollouts) = length (value_preds rollouts) ->
      length (get_advantages cfg rollouts) = (length (returns rollouts) - 1)%nat).
Proof.
  split.
  - unfold get_advantages, raw_advantages, with_last_step.
    cbn [returns value_preds]. by rewrite !removelast_last.
  - intros Hl. unfold get_advantages, raw_advantages.
    assert (H : length (zip_with sub (removelast (returns rollouts))
                          (removelast (value_preds rollouts)))
                = (length (returns rollouts) - 1)%nat).
    { rewrite length_zip_with, !removelast_length. lia. }
    destruct (negb (use_normalized_advantage cfg)); [done|].
    by rewrite length_map.
Qed.

Lemma get_advantages_ignores_last_step_witness :
  length (get_advantages (mk_cfg true (2 / 10)) constant_rollout) = 5%nat.
Proof.
  apply (proj2 (get_advantages_ignores_last_step (mk_cfg true (2 / 10))
                  constant_rollout [] []) eq_refl).
Defined.

(** X2. On two advantages or more, normalization applies one function to
    every advantage; that function never reverses the order of two
    advantages, and it sends the mean of the advantages to 0. *)
Theorem normalization_keeps_order (cfg : Config) (rollouts : RolloutStorage) :
  use_normalized_advantage cfg = true ->
  let flat := concat (raw_advantages rollouts) in
  (2 <= length flat)%nat ->
  get_advantages cfg rollouts
  = map (map (normalizer flat)) (raw_advantages rollouts)
  /\ (forall a b, a <= b -> normalizer flat a <= normalizer flat b)
  /\ normalizer flat (mean flat) = 0.
Proof.
  intros Hn flat _. split; [|split].
  - unfold get_advantages. rewrite Hn. reflexivity.
  - intros a b Hab. unfold normalizer.
    pose proof (normalizer_pos flat) as Hk.
    apply Rmult_le_compat_r; [|lra].
    apply Rlt_le. by apply Rinv_0_lt_compat.
  - unfold normalizer. pose proof (normalizer_pos flat) as Hk.
    unfold Rdiv. replace (mean flat - mean flat) with 0 by lra. lra.
Qed.

Lemma normalization_keeps_order_witness :
  get_advantages (mk_cfg true (2 / 10)) two_step_rollout
  = map (map (normalizer (concat (raw_advantages two_step_rollout))))
        (raw_advantages two_step_rollout)
  /\ normalizer (concat (raw_advantages two_step_rollout)) 0
     <= normalizer (concat (raw_advantages two_step_rollout)) 2.
Proof.
  destruct (normalization_keeps_order (mk_cfg true (2 / 10))
              two_step_rollout eq_refl ltac:(simpl; lia))
    as (Hmap & Hincr & _).
  split; [exact Hmap|]. apply Hincr. lra.
Defined.

End Advantages.

Section PolicyLosses.
Local Open Scope R_scope.
Import Tensor WDDPPO.

Lemma sum_minimum_le (x y : Tensor.t) :
  length x = length y -> sum (minimum x y) <= sum x /\ sum (minimum x y) <= sum y.
Proof.
  unfold sum, minimum. revert y.
  induction x as [|a x IH]; intros [|b y] Hl; cbn in *; try lia; [lra|].
  destruct (IH y ltac:(lia)) as [H1 H2].
  pose proof (Rmin_l a b). pose proof (Rmin_r a b). lra.
Qed.

Lemma sum_maximum_ge (x y : Tensor.t) :
  length x = length y -> sum x <= sum (maximum x y).
Proof.
  unfold sum, maximum. revert y.
  induction x as [|a x IH]; intros [|b y] Hl; cbn in *; try lia; [lra|].
  specialize (IH y ltac:(lia)). pose proof (Rmax_l a b). lra.
Qed.

Lemma mean_le (x y : Tensor.t) :
  length x = length y -> sum x <= sum y -> mean x <= mean y.
Proof.
  intros Hl Hs. unfold mean, numel. rewrite Hl.
  destruct y as [|b y].
  - destruct x; [|done]. lra.
  - apply Rmult_le_compat_r; [|done].
    apply Rlt_le, Rinv_0_lt_compat, lt_0_INR. cbn. lia.
Qed.

Lemma exp_sub_same (x : Tensor.t) : exp (sub x x) = map (fun _ => 1) x.
Proof.
  unfold exp, sub. induction x as [|a x IH]; cbn; [done|].
  rewrite IH. f_equal. replace (a - a) with 0 by lra. apply exp_0.
Qed.

Lemma clamp_ones (c : R) (x : Tensor.t) :
  0 <= c -> clamp (1 - c) (1 + c) (map (fun _ => 1) x) = map (fun _ => 1) x.
Proof.
  intros Hc. unfold clamp. rewrite map_map. apply map_ext. intros _.
  unfold clamp1, Rmax, Rmin.
  destruct (Rle_dec 1 (1 - c)); destruct (Rle_dec _ (1 + c)); lra.
Qed.

Lemma mul_ones (x y : Tensor.t) :
  length x = length y -> mul (map (fun _ => 1) x) y = y.
Proof.
  unfold mul. revert y. induction x as [|a x IH]; intros [|b y] Hl; cbn in *;
    try done.
  rewrite IH by lia. f_equal. lra.
Qed.

Lemma minimum_same (x : Tensor.t) : minimum x x = x.
Proof.
  unfold minimum. induction x as [|a x IH]; [done|]. cbn. rewrite IH. f_equal.
  unfold Rmin. destruct (Rle_dec a a); lra.
Qed.

(** X5. Before the policy has moved (new log-probabilities equal to the old
    ones) and for a clipping range that is not negative, the action loss is
    minus the mean advantage. *)
Theorem action_loss_on_policy (cfg : Config)
    (action_log_probs adv_targ : Tensor.t) :
  0 <= clip_param cfg ->
  length action_log_probs = length adv_targ ->
  action_loss cfg action_log_probs action_log_probs adv_targ = - mean adv_targ.
Proof.
  intros Hc Hl. unfold action_loss.
  rewrite exp_sub_same, clamp_ones by done.
  rewrite mul_ones by done. by rewrite minimum_same.
Qed.

Lemma action_loss_on_policy_witness :
  action_loss clip_example [1; 2] [1; 2] [3; 5] = - mean [3; 5].
Proof.
  apply (action_loss_on_policy clip_example [1; 2] [3; 5]).
  - simpl. lra.
  - reflexivity.
Defined.

(** X6. The action loss is never below the loss of the unclipped surrogate,
    nor below that of the clipped surrogate: the objective that is
    maximized is the smaller of the two, element by element. *)
Theorem action_loss_is_pessimistic (cfg : Config)
    (action_log_probs old_action_log_probs_batch adv_targ : Tensor.t) :
  let ratio := exp (sub action_log_probs old_action_log_probs_batch) in
  - mean (mul ratio adv_targ)
  <= action_loss cfg action_log_probs old_action_log_probs_batch adv_targ
  /\ - mean (mul (clamp (1 - clip_param cfg) (1 + clip_param cfg) ratio)
                 adv_targ)
     <= action_loss cfg action_log_probs old_action_log_probs_batch adv_targ.
Proof.
  intros ratio. unfold action_loss. fold ratio.
  set (s1 := mul ratio adv_targ).
  set (s2 := mul (clamp (1 - clip_param cfg) (1 + clip_param cfg) ratio) adv_targ).
  assert (Hl : length s1 = length s2).
  { unfold s1, s2, mul, clamp. by rewrite !length_zip_with, length_map. }
  destruct (sum_minimum_le s1 s2 Hl) as [H1 H2].
  assert (Hm : length (minimum s1 s2) = length s1).
  { unfold minimum. rewrite length_zip_with. lia. }
  pose proof (mean_le _ _ Hm H1).
  pose proof (mean_le (minimum s1 s2) s2 ltac:(lia) H2).
  lra.
Qed.

Lemma sum_pow2_nonneg (x : Tensor.t) : 0 <= sum (pow2 x).
Proof.
  unfold sum, pow2. induction x as [|a x IH]; cbn; [lra|]. nra.
Qed.

Lemma mean_pow2_nonneg (x : Tensor.t) : 0 <= mean (pow2 x).
Proof.
  unfold mean, numel. destruct x as [|a x].
  - cbn. unfold Rdiv. lra.
  - apply Rmult_le_pos; [apply sum_pow2_nonneg|].
    apply Rlt_le, Rinv_0_lt_compat, lt_0_INR. cbn. lia.
Qed.

(** X7. For old predictions of the shape of the values, the unclipped value
    loss is not negative and the clipped value loss is at least as large;
    with a coefficient that is not negative, the value loss of either mode
    is not negative. *)
Theorem clipped_value_loss_dominates (cfg : Config)
    (values value_preds_batch return_batch : Tensor.t) :
  length value_preds_batch = length values ->
  0 <= unclipped_value_loss values return_batch
       <= clipped_value_loss cfg values value_preds_batch return_batch
  /\ (0 <= value_loss_coef cfg ->
      0 <= value_loss cfg values value_preds_batch return_batch).
Proof.
  intros Hl.
  set (vl := value_losses values return_batch).
  set (vlc := value_losses_clipped cfg values value_preds_batch return_batch).
  assert (Hlen : length vl = length vlc).
  { unfold vl, vlc, value_losses, value_losses_clipped, value_pred_clipped,
      pow2, sub, add, clamp.
    rewrite !length_map, !length_zip_with, !length_map, !length_zip_with. lia. }
  assert (Hu : unclipped_value_loss values return_batch = 5 / 10 * mean vl).
  { unfold unclipped_value_loss, vl, value_losses.
    by rewrite (pow2_sub_comm return_batch values). }
  assert (H0 : 0 <= mean vl) by apply mean_pow2_nonneg.
  assert (Hm : mean vl <= mean (maximum vl vlc)).
  { apply mean_le.
    - unfold maximum. rewrite length_zip_with. lia.
    - by apply sum_maximum_ge. }
  assert (Hc : clipped_value_loss cfg values value_preds_batch return_batch
               = 5 / 10 * mean (maximum vl vlc)) by reflexivity.
  split.
  - rewrite Hu, Hc. lra.
  - intros Hcoef. unfold value_loss.
    destruct (use_clipped_value_loss cfg).
    + rewrite Hc. apply Rmult_le_pos; lra.
    + rewrite Hu. apply Rmult_le_pos; lra.
Qed.

Lemma clipped_value_loss_dominates_witness :
  unclipped_value_loss [1; 3] [0; 5]
  <= clipped_value_loss clip_example [1; 3] [0; 4] [0; 5].
Proof.
  apply (proj1 (clipped_value_loss_dominates clip_example [1; 3] [0; 4] [0; 5]
                  eq_refl)).
Defined.

Lemma mean_add (x y : Tensor.t) :
  length x = length y -> mean (add x y) = mean x + mean y.
Proof.
  intros Hl. unfold mean, numel, add. rewrite length_zip_with, <- Hl, Nat.min_id.
  assert (E : sum (zip_with Rplus x y) = sum x + sum y).
  { unfold sum. revert y Hl. induction x as [|a x IH]; intros [|b y] Hl;
      cbn in *; try done; [lra|]. rewrite IH by lia. lra. }
  rewrite E. unfold Rdiv. lra.
Qed.

Lemma mean_scale (c : R) (x : Tensor.t) : mean (scale c x) = c * mean x.
Proof.
  unfold mean, numel, scale. rewrite length_map.
  assert (E : sum (map (Rmult c) x) = c * sum x).
  { unfold sum. induction x as [|a x IH]; cbn; [lra|]. rewrite IH. lra. }
  rewrite E. unfold Rdiv. lra.
Qed.

(** X8. For entropies of one shape, the entropy loss is [entropy_coef]
    times the weighted sum of the three mean entropies, the very means
    that [update] accumulates for its report. *)
Theorem entropy_loss_of_means (cfg : Config) (entropy : Entropy) :
  length (pano entropy) = length (offset entropy) ->
  length (offset entropy) = length (distance entropy) ->
  entropy_loss cfg entropy
  = entropy_coef cfg
    * (pano_entropy_coef cfg * mean (pano entropy)
       + offset_entropy_coef cfg * mean (offset entropy)
       + distance_entropy_coef cfg * mean (distance entropy)).
Proof.
  intros H1 H2. unfold entropy_loss.
  rewrite !mean_add, !mean_scale.
  - lra.
  - unfold scale. by rewrite !length_map.
  - unfold add, scale. rewrite length_zip_with, !length_map. lia.
Qed.

Lemma entropy_loss_of_means_witness :
  entropy_loss clip_example {| pano := [1]; offset := [2]; distance := [3] |}
  = entropy_coef clip_example
    * (pano_entropy_coef clip_example * mean [1]
       + offset_entropy_coef clip_example * mean [2]
       + distance_entropy_coef clip_example * mean [3]).
Proof.
  apply (entropy_loss_of_means clip_example
           {| pano := [1]; offset := [2]; distance := [3] |} eq_refl eq_refl).
Defined.
End PolicyLosses.

Section Defaults.
Context `{C : Collaborators}.
Local Open Scope R_scope.
Import Tensor WDDPPO.

(** X9. With [offset_regularize_coef] at its default, 0, the offset term is
    0 whether or not the action batch has an ["offset"] entry, and the loss
    is [value_loss + action_loss - entropy_loss]. *)
Theorem offset_term_off_by_default (cfg : Config) (x : Ext)
    (obs : gmap string Tensor.t) (sample : Sample) :
  offset_regularize_coef cfg = 0 ->
  let ts := minibatch_terms cfg x obs sample in
  t_offset_loss ts = 0
  /\ total_loss ts = t_value_loss ts + t_action_loss ts - t_entropy_loss ts.
Proof.
  intros H0 ts.
  assert (Ho : t_offset_loss ts = 0).
  { unfold ts, minibatch_terms.
    destruct (evaluate_actions _ _ _ _ _ _) as [[? ?] ?]. cbn.
    unfold offset_loss. rewrite H0.
    destruct (actions_batch sample !! "offset"%string); lra. }
  split; [exact Ho|]. unfold total_loss. rewrite Ho. lra.
Qed.

(** X10. If the loader of negatives raises at its first call and there is
    a minibatch to run, [CWDDPPO.update] raises that exception before any
    call of the optimizer or of a hook. *)
Theorem failing_loader_stops_update (cfg : Config) (rollouts : RolloutStorage)
    (w : World) (e : exn) (x' : Ext) :
  generator_contract ->
  (0 < ppo_epoch cfg)%Z -> (0 < num_mini_batch cfg)%Z ->
  next_diter (ext w) = (Raise e, x') ->
  CWDDPPO.update cfg rollouts w = (Raise e, {| ext := x'; trace := trace w |}).
Proof. apply cw_update_loader_raises. Qed.
End Defaults.

Lemma offset_term_off_by_default_witness :
  t_offset_loss
    (@WDDPPO.minibatch_terms still_collaborators no_offset_cfg tt ∅
       empty_sample) = 0%R.
Proof.
  apply (proj1 (@offset_term_off_by_default still_collaborators no_offset_cfg
                  tt ∅ empty_sample eq_refl)).
Defined.

Lemma failing_loader_stops_update_witness :
  @CWDDPPO.update broken_loader_collaborators (mk_cfg true (2 / 10))
    two_step_rollout broken_loader_world
  = (Raise TypeError, broken_loader_world).
Proof.
  apply (@failing_loader_stops_update broken_loader_collaborators
           (mk_cfg true (2 / 10)) two_step_rollout broken_loader_world
           TypeError tt).
  - intros x r a n _. apply length_replicate.
  - simpl. lia.
  - simpl. lia.
  - reflexivity.
Defined.

Section CollateProofs.
Import Collate.
Context {F Sh : Type} `{EqDecision Sh} (shape : F -> Sh).

Lemma feat_lists_unzip (batch : list (F * F)) :
  feat_lists batch = (batch.*1, batch.*2).
Proof.
  unfold feat_lists.
  assert (H : forall acc : list F * list F,
             foldl (fun acc item => (acc.1 ++ [item.1], acc.2 ++ [item.2]))
                   acc batch
             = (acc.1 ++ batch.*1, acc.2 ++ batch.*2)).
  { induction batch as [|[r d] batch IH]; intros [a b]; cbn.
    - by rewrite !app_nil_r.
    - rewrite IH. cbn. by rewrite <- !app_assoc. }
  by rewrite H.
Qed.

Lemma stack_Some (tensors out : list F) :
  stack shape tensors = Some out
  <-> tensors <> [] /\ uniform shape tensors /\ out = tensors.
Proof.
  unfold stack, uniform. destruct tensors as [|x l].
  - split; [done|]. by intros [? _].
  - destruct (forallb _ _) eqn:Hall.
    + rewrite forallb_forall in Hall. split.
      * intros [= <-]. split; [done|]. split; [|done].
        intros a b Ha Hb.
        apply list_elem_of_In, Hall, bool_decide_eq_true in Ha.
        apply list_elem_of_In, Hall, bool_decide_eq_true in Hb. congruence.
      * intros (_ & _ & ->). done.
    + split; [done|]. intros (_ & Hu & _). exfalso.
      assert (forallb (fun y => bool_decide (shape y = shape x)) (x :: l) = true);
        [|congruence].
      apply forallb_forall. intros y Hy. apply bool_decide_eq_true.
      apply Hu; [by apply list_elem_of_In|by left].
Qed.

(** X11. When [fn] returns, its two results are the first and the second
    components of the batch, in order: zipped again they are the batch. It
    returns exactly for a batch that is not empty and whose rgb features,
    and whose depth features, are all of one shape. *)
Theorem fn_collates (batch : list (F * F)) :
  (forall rgb_feats depth_feats,
     fn shape batch = Some (rgb_feats, depth_feats) ->
     rgb_feats = batch.*1 /\ depth_feats = batch.*2
     /\ zip rgb_feats depth_feats = batch
     /\ length rgb_feats = length batch /\ length depth_feats = length batch)
  /\ (is_Some (fn shape batch)
      <-> batch <> [] /\ uniform shape (batch.*1) /\ uniform shape (batch.*2)).
Proof.
  unfold fn. rewrite feat_lists_unzip. split.
  - intros rs ds Hfn.
    destruct (stack shape (batch.*1)) as [rs'|] eqn:Hr; [|done].
    destruct (stack shape (batch.*2)) as [ds'|] eqn:Hd; [|done].
    injection Hfn as <- <-.
    apply stack_Some in Hr as (_ & _ & ->).
    apply stack_Some in Hd as (_ & _ & ->).
    split; [done|]. split; [done|]. split; [apply zip_fst_snd|].
    by rewrite !length_fmap.
  - split.
    + intros [[rs ds] Hfn].
      destruct (stack shape (batch.*1)) as [rs'|] eqn:Hr; [|done].
      destruct (stack shape (batch.*2)) as [ds'|] eqn:Hd; [|done].
      apply stack_Some in Hr as (Hne & Hu1 & _).
      apply stack_Some in Hd as (_ & Hu2 & _).
      split; [|done]. intros ->. done.
    + intros (Hne & Hu1 & Hu2).
      assert (Hr : stack shape (batch.*1) = Some (batch.*1)).
      { apply stack_Some. split; [|done]. by destruct batch. }
      assert (Hd : stack shape (batch.*2) = Some (batch.*2)).
      { apply stack_Some. split; [|done]. by destruct batch. }
      rewrite Hr, Hd. eauto.
Qed.
End CollateProofs.

Lemma fn_collates_witness :
  zip [[1; 2]; [4; 5]]%Z [[3]; [6]]%Z = [([1; 2], [3]); ([4; 5], [6])]%Z.
Proof.
  refine (proj1 (proj2 (proj2 (proj1 (fn_collates (@length Z)
                                        [([1; 2], [3]); ([4; 5], [6])]%Z)
                                     [[1; 2]; [4; 5]]%Z [[3]; [6]]%Z _)))).
  vm_compute. reflexivity.
Defined.

Section BlockEdges.
Context {A : Type}.
Implicit Types (lst : list A) (g : random.state).

Lemma shuffle_nil g : random.shuffle (@nil A) g = (Ok [], g).
Proof. reflexivity. Qed.

(** X12. A block size of 0 makes [_block_shuffle] raise ValueError; a
    negative one makes it return the empty list, whatever the input; the
    empty list is returned as it is for every other block size. None of
    these draws from the generator. *)
Theorem block_shuffle_edges lst g :
  _block_shuffle lst 0 g = (Raise ValueError, g)
  /\ (forall block_size, (block_size < 0)%Z ->
        _block_shuffle lst block_size g = (Ok [], g))
  /\ (forall block_size, block_size <> 0%Z ->
        _block_shuffle (@nil A) block_size g = (Ok [], g)).
Proof.
  split; [done|]. split.
  - intros b Hb. unfold _block_shuffle, blocks.
    destruct (Z.eqb_spec b 0) as [|_]; [lia|].
    destruct (Z.ltb_spec b 0) as [_|]; [|lia]. reflexivity.
  - intros b Hb. unfold _block_shuffle, blocks.
    destruct (Z.eqb_spec b 0) as [|_]; [done|].
    destruct (Z.ltb_spec b 0) as [_|]; reflexivity.
Qed.

(** X13. For a positive block size the output of [_block_shuffle] is the
    blocks of the input, each kept whole and in its own order, put end to
    end in some order; block [k] is [lst[k * n : (k + 1) * n]], never
    empty and of at most [n] elements. *)
Theorem block_shuffle_keeps_blocks lst (block_size : Z) g :
  (0 < block_size)%Z ->
  let n := Z.to_nat block_size in
  exists bs bs' g',
    blocks lst block_size = Ok bs
    /\ _block_shuffle lst block_size g = (Ok (concat bs'), g')
    /\ bs' ≡ₚ bs
    /\ concat bs = lst
    /\ (forall k c, bs !! k = Some c ->
          c = take n (drop (k * n) lst) /\ (0 < length c <= n)%nat).
Proof.
  intros Hb n.
  destruct (blocks_concat lst block_size Hb) as (bs & Eb & Hc).
  destruct (shuffle_Permutation bs g) as (bs' & g' & Es & Hp).
  exists bs, bs', g'. split; [done|]. split.
  { unfold _block_shuffle. by rewrite Eb, Es. }
  split; [done|]. split; [done|].
  intros k c Hk. unfold blocks in Eb.
  destruct (Z.eqb_spec block_size 0) as [|_]; [lia|].
  destruct (Z.ltb_spec block_size 0) as [|_]; [lia|].
  injection Eb as <-. fold n in Hk. unfold range_step in Hk.
  rewrite <- list_fmap_compose, list_lookup_fmap in Hk.
  destruct (seq 0 _ !! k) as [k'|] eqn:Hseq; [|done].
  apply lookup_seq in Hseq as [-> Hlt]. cbn in Hk. injection Hk as <-.
  split; [done|]. rewrite length_take, length_drop.
  assert (Hn : (0 < n)%nat) by (unfold n; lia).
  destruct (Nat.ltb_spec 0 (length lst)) as [Hl|Hl]; [|lia].
  assert (k * n < length lst)%nat.
  { pose proof (Nat.div_mod_eq (length lst - 1) n).
    pose proof (Nat.mod_upper_bound (length lst - 1) n ltac:(lia)). nia. }
  lia.
Qed.
End BlockEdges.

Lemma block_shuffle_keeps_blocks_witness :
  exists bs bs' g',
    blocks [1; 2; 3; 4; 5]%Z 2 = Ok bs
    /\ _block_shuffle [1; 2; 3; 4; 5]%Z 2 [3; 1; 4]%nat = (Ok (concat bs'), g')
    /\ bs' ≡ₚ bs
    /\ concat bs = [1; 2; 3; 4; 5]%Z
    /\ (forall k c, bs !! k = Some c ->
          c = take (Z.to_nat 2) (drop (k * Z.to_nat 2) [1; 2; 3; 4; 5]%Z)
          /\ (0 < length c <= Z.to_nat 2)%nat).
Proof.
  apply (block_shuffle_keeps_blocks [1; 2; 3; 4; 5]%Z 2 [3; 1; 4]%nat).
  lia.
Defined.

Lemma block_shuffle_edges_witness :
  _block_shuffle [1; 2; 3]%Z (-2) [5]%nat = (Ok [], [5]%nat).
Proof.
  apply (proj1 (proj2 (block_shuffle_edges [1; 2; 3]%Z [5]%nat)) (-2)%Z).
  lia.
Defined.

Section DatasetEdges.
Local Open Scope Z_scope.
Import FramesDataset Stream Buffer.

Lemma iter_guard (worker_info : option (Z * Z)) (w : World) :
  (forall id W, worker_info = Some (id, W) -> W <> 0) ->
  (match worker_info with
   | Some (_, 0) => raise ZeroDivisionError
   | _ => ret tt
   end) w = (Ok tt, w).
Proof.
  intros Hwi. destruct worker_info as [[id W]|]; [|done].
  specialize (Hwi id W eq_refl). by destruct W.
Qed.

(** [__iter__] on any world of a worker, fresh or in the middle of a
    pass. *)
Lemma iter_general (worker_info : option (Z * Z)) (w : World) s e :
  (forall id W, worker_info = Some (id, W) -> W <> 0) ->
  0 < preload_size (self w) ->
  shard (length (self w)) worker_info = (s, e) ->
  exists P w',
    __iter__ worker_info w = (Ok tt, w')
    /\ P ≡ₚ range s e
    /\ (Z.of_nat (List.length (range s e)) <= preload_size (self w) ->
        P = range s e)
    /\ load_ordering (self w') = Some (reverse P)
    /\ start (self w') = Some s /\ end_ (self w') = Some e
    /\ _preload (self w') = _preload (self w)
    /\ reads w' = reads w
    /\ lmdb w' = lmdb w
    /\ batch_size (self w') = batch_size (self w)
    /\ preload_size (self w') = preload_size (self w).
Proof.
  intros Hwi Hps Hsh. unfold __iter__.
  enter get. unfold bind at 1. rewrite (iter_guard _ _ Hwi), Hsh.
  unfold bind at 1. unfold set_shard, set_self, modify at 1.
  match goal with |- context [new_load_ordering ?w1] => set (w1' := w1) end.
  destruct (new_load_ordering_spec w1' s e eq_refl eq_refl Hps)
    as (P & w' & E & HP & Hsm & Hq & Hrd & Hpre & Hc).
  exists P, w'. split; [exact E|]. split; [exact HP|]. split; [exact Hsm|].
  split; [exact Hq|].
  destruct Hc as (Hl & Hp & Hb & _ & Hs & He).
  rewrite Hs, He, Hpre, Hrd, Hl, Hb, Hp. done.
Qed.

(** X14. [__iter__] on a world in any state (and a positive preload size)
    sets the queue to a whole new pass over the worker's shard, dropping
    what was left of the pass under way; it keeps the preload buffer and
    reads nothing from the store. *)
Theorem iter_restarts_the_pass (worker_info : option (Z * Z)) (w : World) :
  (forall id W, worker_info = Some (id, W) -> W <> 0) ->
  0 < preload_size (self w) ->
  exists P w',
    __iter__ worker_info w = (Ok tt, w')
    /\ P ≡ₚ range (shard (length (self w)) worker_info).1
                   (shard (length (self w)) worker_info).2
    /\ load_ordering (self w') = Some (reverse P)
    /\ _preload (self w') = _preload (self w)
    /\ reads w' = reads w.
Proof.
  intros Hwi Hps.
  destruct (shard (length (self w)) worker_info) as [s e] eqn:Hsh.
  destruct (iter_general worker_info w s e Hwi Hps Hsh)
    as (P & w' & E & HP & _ & Hq & _ & _ & Hpre & Hrd & _).
  by exists P, w'.
Qed.

Lemma next_before_iter (store : gmap Z Observation) (bs : Z) g :
  __next__ (fresh store bs g)
  = (Raise (if 0 <? bs then AttributeError else IndexError), fresh store bs g).
Proof.
  unfold __next__, _load_next. enter get.
  change (Z.of_nat (List.length (_preload (self (fresh store bs g))))) with 0.
  change (batch_size (self (fresh store bs g))) with bs.
  destruct (0 <? bs); reflexivity.
Qed.

(** X15. Before [__iter__], [__next__] raises: AttributeError for a
    positive batch size (the queue does not exist yet), IndexError
    otherwise (the buffer is empty and never refilled). The world is left
    as it was. *)
Theorem next_needs_iter (store : gmap Z Observation) (bs : Z) g :
  (0 < bs ->
   __next__ (fresh store bs g) = (Raise AttributeError, fresh store bs g))
  /\ (bs <= 0 ->
      __next__ (fresh store bs g) = (Raise IndexError, fresh store bs g)).
Proof.
  split; intros Hb; rewrite next_before_iter.
  - destruct (Z.ltb_spec 0 bs); [done|lia].
  - destruct (Z.ltb_spec 0 bs); [lia|done].
Qed.

Lemma take_items_raises (n : nat) (w w' : World) (e : exn) :
  __next__ w = (Raise e, w') -> take_items (S n) w = (Raise e, w').
Proof. intros E. cbn [take_items]. unfold bind at 1. by rewrite E. Qed.

(** X16. A dataset with batch size 0 cannot be iterated: [__iter__] raises
    ValueError. With a negative batch size [__iter__] sets an empty queue
    and every [__next__] raises IndexError. *)
Theorem batch_size_must_be_positive (store : gmap Z Observation) (bs : Z) g
    (worker_info : option (Z * Z)) :
  (forall id W, worker_info = Some (id, W) -> W <> 0) ->
  (bs = 0 ->
   exists w', __iter__ worker_info (fresh store bs g) = (Raise ValueError, w'))
  /\ (bs < 0 ->
      exists w1,
        __iter__ worker_info (fresh store bs g) = (Ok tt, w1)
        /\ load_ordering (self w1) = Some []
        /\ forall n, take_items (S n) w1 = (Raise IndexError, w1)).
Proof.
  intros Hwi. split; intros Hb.
  - subst bs. unfold __iter__. enter get. unfold bind at 1.
    rewrite (iter_guard _ _ Hwi).
    destruct (shard _ worker_info) as [s e].
    unfold bind at 1. unfold set_shard, set_self, modify at 1.
    unfold new_load_ordering. enter get. enter attr. cbn [self start].
    enter attr. cbn [self end_]. enter with_rng. cbn [self rng preload_size].
    eexists. reflexivity.
  - unfold __iter__. enter get. unfold bind at 1.
    rewrite (iter_guard _ _ Hwi).
    destruct (shard _ worker_info) as [s e].
    unfold bind at 1. unfold set_shard, set_self, modify at 1.
    unfold new_load_ordering. enter get. enter attr. cbn [self start].
    enter attr. cbn [self end_]. enter with_rng.
    cbn [self rng preload_size __init__ fresh].
    unfold _block_shuffle, blocks.
    destruct (Z.eqb_spec (bs * 10) 0) as [|_]; [lia|].
    destruct (Z.ltb_spec (bs * 10) 0) as [_|]; [|lia].
    cbn. eexists. split; [reflexivity|]. split; [reflexivity|].
    intros n. apply take_items_raises.
    unfold __next__, _load_next. enter get. cbn.
    change (Z.of_nat 0) with 0.
    destruct (Z.ltb_spec 0 bs); [lia|]. reflexivity.
Qed.

Lemma first_read_missing (w : World) (q : list Z) (i : Z) :
  load_ordering (self w) = Some (q ++ [i]) ->
  lmdb w !! i = None ->
  Z.of_nat (List.length (_preload (self w))) < batch_size (self w) ->
  0 < preload_size (self w) ->
  exists w', __next__ w = (Raise TypeError, w') /\ reads w' = reads w ++ [i].
Proof.
  intros Hq Hi Hlt Hps. unfold __next__, _load_next. enter get.
  destruct (Z.ltb_spec (Z.of_nat (List.length (_preload (self w))))
                       (batch_size (self w))) as [_|]; [|lia].
  unfold bind at 1. unfold refill. enter get. enter attr. rewrite Hq.
  rewrite length_app. cbn [List.length]. rewrite Nat.add_1_r.
  cbn [Nat.eqb]. unfold bind at 1. unfold ret at 1.
  enter attr. rewrite Hq. rewrite length_app. cbn [List.length].
  rewrite Nat.add_1_r. unfold bind at 1. cbn [load_loop]. enter get.
  destruct (Z.ltb_spec (Z.of_nat (@List.length pair [])) (preload_size (self w)))
    as [_|Hge]; [|cbn in Hge; lia].
  enter attr. rewrite Hq, list_pop_snoc.
  unfold bind at 1. unfold set_load_ordering, set_self, modify at 1.
  enter txn_get. cbn [lmdb]. rewrite Hi. eexists. split; reflexivity.
Qed.

(** X17. A key that the store lacks is not skipped: on a shard none of
    whose keys is in the store, the first [__next__] raises TypeError
    ([unpackb] of [None]) after one read, of a key of the shard; on a shard
    of a single block whose first key is absent, after reading that
    key. *)
Theorem missing_record_raises (store : gmap Z Observation) (bs : Z) g
    (worker_info : option (Z * Z)) (s e : Z) :
  0 < bs ->
  (forall id W, worker_info = Some (id, W) -> W <> 0) ->
  shard (Z.of_nat (size store)) worker_info = (s, e) ->
  s < e ->
  ((forall i, s <= i < e -> store !! i = None) ->
   exists i w',
     bind (__iter__ worker_info) (fun _ => __next__) (fresh store bs g)
     = (Raise TypeError, w')
     /\ reads w' = [i] /\ s <= i < e)
  /\ (e - s <= bs * 10 -> store !! s = None ->
      exists w',
        bind (__iter__ worker_info) (fun _ => __next__) (fresh store bs g)
        = (Raise TypeError, w')
        /\ reads w' = [s]).
Proof.
  intros Hb Hwi Hsh Hse.
  destruct (iter_general worker_info (fresh store bs g) s e Hwi
              ltac:(cbn; lia) Hsh)
    as (P & w1 & E & HP & Hsm & Hq & _ & _ & Hpre & Hrd & Hl & Hbs & Hps).
  assert (Hne : P <> []).
  { intros ->. apply Permutation_nil_l in HP.
    by apply (range_nonempty s e Hse). }
  destruct P as [|i P]; [done|]. rewrite reverse_cons in Hq.
  assert (Hstep : lmdb w1 !! i = None ->
            exists w', bind (__iter__ worker_info) (fun _ => __next__)
                            (fresh store bs g) = (Raise TypeError, w')
                       /\ reads w' = [i]).
  { intros Hi.
    destruct (first_read_missing w1 (reverse P) i Hq Hi) as (w' & E' & Hr').
    - rewrite Hpre, Hbs. cbn. lia.
    - rewrite Hps. cbn. lia.
    - exists w'. unfold bind. rewrite E. split; [done|]. by rewrite Hr', Hrd. }
  assert (Hin : s <= i < e).
  { apply elem_of_range. rewrite <- HP. by left. }
  split.
  - intros Hnone. destruct Hstep as (w' & E' & Hr').
    + rewrite Hl. by apply Hnone.
    + by exists i, w'.
  - intros Hsmall Hs.
    assert (HP' : i :: P = range s e).
    { apply Hsm. unfold range. rewrite length_seqZ. cbn. lia. }
    assert (i = s).
    { unfold range in HP'. rewrite seqZ_cons in HP' by lia. congruence. }
    subst i. apply Hstep. by rewrite Hl.
Qed.


Lemma first_read_malformed (w : World) (q : list Z) (i : Z) (o : Observation)
    (err : exn) :
  load_ordering (self w) = Some (q ++ [i]) ->
  lmdb w !! i = Some o ->
  (forall S (s : S), pairs_of o s = (Raise err, s)) ->
  Z.of_nat (List.length (_preload (self w))) < batch_size (self w) ->
  0 < preload_size (self w) ->
  exists w', __next__ w = (Raise err, w') /\ reads w' = reads w ++ [i].
Proof.
  intros Hq Hi Ho Hlt Hps. unfold __next__, _load_next. enter get.
  destruct (Z.ltb_spec (Z.of_nat (List.length (_preload (self w))))
                       (batch_size (self w))) as [_|]; [|lia].
  unfold bind at 1. unfold refill. enter get. enter attr. rewrite Hq.
  rewrite length_app. cbn [List.length]. rewrite Nat.add_1_r.
  cbn [Nat.eqb]. unfold bind at 1. unfold ret at 1.
  enter attr. rewrite Hq. rewrite length_app. cbn [List.length].
  rewrite Nat.add_1_r. unfold bind at 1. cbn [load_loop]. enter get.
  destruct (Z.ltb_spec (Z.of_nat (@List.length pair [])) (preload_size (self w)))
    as [_|Hge]; [|cbn in Hge; lia].
  enter attr. rewrite Hq, list_pop_snoc.
  unfold bind at 1. unfold set_load_ordering, set_self, modify at 1.
  enter txn_get. cbn [lmdb]. rewrite Hi.
  unfold bind at 1. rewrite Ho. eexists. split; reflexivity.
Qed.

(** X22. A record that cannot be taken apart is not skipped: on a shard of
    a single block whose first record has an rgb array that is not
    five-dimensional, or a depth array of another size than [n * c] rows,
    the first [__next__] raises ValueError after reading that record. *)
Theorem malformed_record_raises (store : gmap Z Observation) (bs : Z) g
    (worker_info : option (Z * Z)) (s e : Z) (o : Observation) :
  0 < bs ->
  (forall id W, worker_info = Some (id, W) -> W <> 0) ->
  shard (Z.of_nat (size store)) worker_info = (s, e) ->
  s < e ->
  e - s <= bs * 10 ->
  store !! s = Some o ->
  (List.length (shape (rgb_features o)) <> 5%nat
   \/ (exists n c d1 d2 d3,
         shape (rgb_features o) = [n; c; d1; d2; d3]
         /\ size_of (shape (depth_features o))
            <> (n * c * size_of (drop 2 (shape (depth_features o))))%nat)) ->
  exists w',
    bind (__iter__ worker_info) (fun _ => __next__) (fresh store bs g)
    = (Raise ValueError, w')
    /\ reads w' = [s].
Proof.
  intros Hb Hwi Hsh Hse Hsmall Hs Hbad.
  destruct (iter_general worker_info (fresh store bs g) s e Hwi
              ltac:(cbn; lia) Hsh)
    as (P & w1 & E & HP & Hsm & Hq & _ & _ & Hpre & Hrd & Hl & Hbs & Hps).
  assert (HP' : P = range s e).
  { apply Hsm. unfold range. rewrite length_seqZ. cbn. lia. }
  unfold range in HP'. rewrite seqZ_cons in HP' by lia. subst P.
  rewrite reverse_cons in Hq.
  destruct (first_read_malformed w1 _ s o ValueError Hq) as (w' & E' & Hr').
  - by rewrite Hl.
  - by apply pairs_of_refuses.
  - rewrite Hpre, Hbs. cbn. lia.
  - rewrite Hps. cbn. lia.
  - exists w'. unfold bind. rewrite E. split; [done|]. by rewrite Hr', Hrd.
Qed.

(** X18. With at least [W * (W - 1)] records (and one at least), the shard
    of every worker is not empty, and holds at most [ceil (L / W)]
    records. *)
Theorem shards_are_not_empty (L W w : Z) :
  0 < L -> 0 < W -> W * (W - 1) <= L -> 0 <= w < W ->
  (shard L (Some (w, W))).1 < (shard L (Some (w, W))).2
  /\ (shard L (Some (w, W))).2 - (shard L (Some (w, W))).1 <= ceil_div L W.
Proof.
  intros HL HW Hbig Hw. unfold shard. cbn [fst snd].
  destruct (ceil_div_bounds L W ltac:(lia) HW) as (Hp & Hlo & Hhi).
  set (p := ceil_div L W) in *.
  assert (Hpw : W - 1 <= p) by nia.
  assert (Hlt : p * w < L).
  { destruct (Z.eq_dec p (W - 1)) as [Heq|Hneq]; nia. }
  split; [|lia]. nia.
Qed.
End DatasetEdges.

Lemma shards_are_not_empty_witness :
  ((FramesDataset.shard 7 (Some (2, 3))).1
   < (FramesDataset.shard 7 (Some (2, 3))).2)%Z.
Proof.
  apply (proj1 (shards_are_not_empty 7 3 2 ltac:(lia) ltac:(lia) ltac:(lia)
                  ltac:(lia))).
Defined.

Lemma iter_restarts_the_pass_witness :
  exists P w',
    FramesDataset.__iter__ None (Stream.fresh (Stream.store_of 5) 1 [])
    = (Ok tt, w')
    /\ P ≡ₚ FramesDataset.range
              (FramesDataset.shard
                 (FramesDataset.length
                    (FramesDataset.self (Stream.fresh (Stream.store_of 5) 1 [])))
                 None).1
              (FramesDataset.shard
                 (FramesDataset.length
                    (FramesDataset.self (Stream.fresh (Stream.store_of 5) 1 [])))
                 None).2
    /\ FramesDataset.load_ordering (FramesDataset.self w') = Some (reverse P)
    /\ FramesDataset._preload (FramesDataset.self w')
       = FramesDataset._preload
           (FramesDataset.self (Stream.fresh (Stream.store_of 5) 1 []))
    /\ FramesDataset.reads w'
       = FramesDataset.reads (Stream.fresh (Stream.store_of 5) 1 []).
Proof.
  apply (iter_restarts_the_pass None (Stream.fresh (Stream.store_of 5) 1 [])).
  - intros id W H. discriminate H.
  - simpl. lia.
Defined.

Lemma next_needs_iter_witness :
  FramesDataset.__next__ (Stream.fresh (Stream.store_of 5) 2 [])
  = (Raise AttributeError, Stream.fresh (Stream.store_of 5) 2 []).
Proof.
  apply (proj1 (next_needs_iter (Stream.store_of 5) 2 [])). lia.
Defined.

Lemma batch_size_must_be_positive_witness :
  exists w',
    FramesDataset.__iter__ None (Stream.fresh (Stream.store_of 5) 0 [])
    = (Raise ValueError, w').
Proof.
  apply (proj1 (batch_size_must_be_positive (Stream.store_of 5) 0 [] None
                  ltac:(intros id W H; discriminate H))).
  reflexivity.
Defined.

Lemma missing_record_raises_witness :
  exists w',
    bind (FramesDataset.__iter__ None) (fun _ => FramesDataset.__next__)
         (Stream.fresh misnumbered_store 1 [])
    = (Raise TypeError, w')
    /\ FramesDataset.reads w' = [0%Z].
Proof.
  refine (proj2 (missing_record_raises misnumbered_store 1 [] None 0 1
                   _ _ _ _) _ _).
  - lia.
  - intros id W H. discriminate H.
  - vm_compute. reflexivity.
  - lia.
  - lia.
  - vm_compute. reflexivity.
Defined.


Lemma malformed_record_raises_witness :
  exists w',
    bind (FramesDataset.__iter__ None) (fun _ => FramesDataset.__next__)
         (Stream.fresh mismatched_store 1 [])
    = (Raise ValueError, w')
    /\ FramesDataset.reads w' = [0%Z].
Proof.
  refine (malformed_record_raises mismatched_store 1 [] None 0 1
            Stream.mismatched_record _ _ _ _ _ _ _).
  - lia.
  - intros id W H. discriminate H.
  - vm_compute. reflexivity.
  - lia.
  - lia.
  - reflexivity.
  - right. exists 2%nat, 1%nat, 1%nat, 1%nat, 1%nat.
    split; [reflexivity|]. simpl. lia.
Defined.

Section Conservation.
Local Open Scope Z_scope.
Import FramesDataset Stream Buffer.

Lemma fmap_lookup_total_seq `{Inhabited A} (l : list A) :
  (fun i => l !!! i) <$> seq 0 (List.length l) = l.
Proof.
  apply list_eq. intros i. rewrite list_lookup_fmap.
  destruct (l !! i) as [x|] eqn:Hi.
  - rewrite (proj2 (lookup_seq 0 (List.length l) i i)).
    + cbn. f_equal. by apply list_lookup_total_correct.
    + split; [done|]. by eapply lookup_lt_Some.
  - apply lookup_ge_None in Hi.
    rewrite (proj2 (lookup_ge_None _ _)); [done|]. by rewrite length_seq.
Qed.

(** The loop that moves the new pairs into the buffer appends them in
    the order of the indices. *)
Lemma append_loop_content (np : list pair) (order : list nat) : forall w,
  Forall (fun i => (i < List.length np)%nat) order ->
  exists w',
    for_each (fun idx (_ : unit) =>
                bind (index np idx) (fun x =>
                bind get (fun w => set_preload (_preload (self w) ++ [x]))))
             order tt w = (Ok tt, w')
    /\ _preload (self w') = _preload (self w) ++ ((fun i => np !!! i) <$> order).
Proof.
  induction order as [|i order IH]; intros w Hi.
  - exists w. cbn. by rewrite app_nil_r.
  - apply Forall_cons in Hi as [Hi Hrest].
    destruct (lookup_lt_is_Some_2 np i Hi) as [x Hx].
    cbn [for_each]. unfold bind at 1. enter index. rewrite Hx.
    unfold ret at 1. enter get. unfold set_preload, set_self, modify at 1.
    match goal with |- context [for_each _ _ _ ?w1] => set (w1' := w1) end.
    destruct (IH w1' Hrest) as (w' & E & Hp).
    exists w'. split; [exact E|]. rewrite Hp. cbn.
    rewrite (list_lookup_total_correct _ _ _ Hx). by rewrite <- app_assoc.
Qed.

Lemma bind_Ok {S A B} (m : M S A) (k : A -> M S B) (s s' : S) (b : B) :
  bind m k s = (Ok b, s') ->
  exists a s1, m s = (Ok a, s1) /\ k a s1 = (Ok b, s').
Proof.
  unfold bind. destruct (m s) as [[a|e] s1]; [|done]. intros E. by exists a, s1.
Qed.

Lemma attr_Ok {A} (f : t -> option A) (w w1 : World) (a : A) :
  attr f w = (Ok a, w1) -> f (self w) = Some a /\ w1 = w.
Proof.
  unfold attr. destruct (f (self w)); [|done]. by intros [= -> ->].
Qed.

Lemma new_load_ordering_untouched (w w1 : World) :
  new_load_ordering w = (Ok tt, w1) -> untouched w w1.
Proof.
  unfold new_load_ordering. intros E.
  apply bind_Ok in E as (w0 & ? & [= <- <-] & E).
  apply bind_Ok in E as (s & ? & [_ ->]%attr_Ok & E).
  apply bind_Ok in E as (e & ? & [_ ->]%attr_Ok & E).
  apply bind_Ok in E as (o & w2 & E2 & E).
  unfold with_rng in E2.
  destruct (_block_shuffle _ _ _) as [r g']. injection E2 as -> <-.
  unfold set_load_ordering, set_self, modify in E. injection E as <-.
  by repeat split.
Qed.

Lemma load_loop_content (fuel : nat) : forall acc w np w1,
  load_loop fuel acc w = (Ok np, w1) ->
  exists f,
    np = acc ++ concat (pairs_at (lmdb w) <$> f)
    /\ reads w1 = reads w ++ f
    /\ lmdb w1 = lmdb w
    /\ _preload (self w1) = _preload (self w)
    /\ batch_size (self w1) = batch_size (self w)
    /\ preload_size (self w1) = preload_size (self w).
Proof.
  induction fuel as [|fuel IH]; intros acc w np w1 E.
  - injection E as <- <-. exists []. cbn. by rewrite !app_nil_r.
  - cbn [load_loop] in E.
    apply bind_Ok in E as (w0 & ? & [= <- <-] & E).
    destruct (Z.of_nat (List.length acc) <? preload_size (self w)).
    + apply bind_Ok in E as (q & ? & [Hq ->]%attr_Ok & E).
      destruct (list_pop q) as [[idx q']|].
      * apply bind_Ok in E as ([] & w2 & E2 & E).
        unfold set_load_ordering, set_self, modify in E2. injection E2 as <-.
        apply bind_Ok in E as (obs & w3 & E3 & E).
        unfold txn_get in E3. cbn [lmdb self rng reads] in E3.
        destruct (lmdb w !! idx) as [o|] eqn:Ho; [|done].
        injection E3 as <- <-.
        apply bind_Ok in E as (ps & w4 & [-> E4]%pairs_of_Ok & E).
        apply IH in E as (f & -> & Hr & Hl & Hp & Hb & Hps).
        exists (idx :: f). cbn in *. unfold pairs_at at 2. rewrite Ho, E4.
        rewrite <- !app_assoc in *. by repeat split.
      * injection E as <- <-. exists []. cbn. by rewrite !app_nil_r.
    + injection E as <- <-. exists []. cbn. by rewrite !app_nil_r.
Qed.

Lemma refill_content (w w1 : World) :
  0 < batch_size (self w) ->
  refill w = (Ok tt, w1) ->
  exists f,
    reads w1 = reads w ++ f
    /\ _preload (self w1)
       ≡ₚ _preload (self w) ++ concat (pairs_at (lmdb w) <$> f)
    /\ lmdb w1 = lmdb w
    /\ batch_size (self w1) = batch_size (self w)
    /\ preload_size (self w1) = preload_size (self w)
    /\ exists fuel wa wb,
         load_loop fuel [] wa = (Ok (concat (pairs_at (lmdb w) <$> f)), wb)
         /\ lmdb wa = lmdb w
         /\ preload_size (self wa) = preload_size (self w).
Proof.
  intros Hb E. unfold refill in E.
  apply bind_Ok in E as (w0 & ? & [= <- <-] & E).
  apply bind_Ok in E as (q & ? & [Hq ->]%attr_Ok & E).
  apply bind_Ok in E as ([] & wa & Ea & E).
  assert (Hu : untouched w wa).
  { destruct (Nat.eqb (List.length q) 0).
    - by apply new_load_ordering_untouched.
    - injection Ea as <-. by repeat split. }
  destruct Hu as (Hl & Hr & Hp & Hbs & Hps).
  apply bind_Ok in E as (q1 & ? & [Hq1 ->]%attr_Ok & E).
  apply bind_Ok in E as (np & wb & Eb & E).
  pose proof Eb as Eloop.
  apply load_loop_content in Eb as (f & Hnp & Hrb & Hlb & Hpb & Hbb & Hpsb).
  cbn [app] in Hnp.
  apply bind_Ok in E as (so & wc & Ec & E).
  destruct (shuffle_Permutation (seq 0 (List.length np)) (rng wb))
    as (so' & g3 & E3 & Hso).
  unfold with_rng in Ec. rewrite E3 in Ec. injection Ec as <- <-.
  apply bind_Ok in E as (order & wd & Ed & E).
  unfold with_rng in Ed. cbn [rng self lmdb reads] in Ed.
  destruct (block_shuffle_Permutation so' (batch_size (self w)) g3 Hb)
    as (order' & g4 & E4 & Horder).
  rewrite E4 in Ed. injection Ed as <- <-.
  match type of E with for_each _ _ _ ?w4 = _ => set (w4' := w4) in E end.
  destruct (append_loop_content np order' w4') as (w5 & E5 & Hp5).
  { rewrite Horder, Hso. apply Forall_forall. intros i Hi.
    apply elem_of_seq in Hi. lia. }
  assert (w1 = w5).
  { rewrite E5 in E. by injection E. }
  subst w5. exists f.
  assert (Hw5 : lmdb w1 = lmdb w4' /\ reads w1 = reads w4'
                /\ batch_size (self w1) = batch_size (self w4')
                /\ preload_size (self w1) = preload_size (self w4')).
  { clear -E5. revert E5. generalize w4'. clear.
    induction order' as [|i order IH]; intros w E.
    - by injection E as <-.
    - cbn [for_each] in E. apply bind_Ok in E as ([] & wa & Ea & E).
      apply bind_Ok in Ea as (x & wb & Eb & Ea).
      unfold index in Eb. destruct (np !! i); [|done]. injection Eb as <- <-.
      apply bind_Ok in Ea as (w0 & ? & [= <- <-] & Ea).
      unfold set_preload, set_self, modify in Ea. injection Ea as <-.
      apply IH in E as (? & ? & ? & ?). done. }
  destruct Hw5 as (Hl5 & Hr5 & Hb5 & Hps5).
  split. { rewrite Hr5. cbn. by rewrite Hrb, Hr. }
  split.
  { rewrite Hp5. cbn. rewrite Hpb, Hp. apply Permutation_app_head.
    rewrite Horder, Hso, fmap_lookup_total_seq, Hnp. by rewrite Hl. }
  split. { rewrite Hl5. cbn. by rewrite Hlb, Hl. }
  split. { rewrite Hb5. cbn. by rewrite Hbb, Hbs. }
  split. { rewrite Hps5. cbn. by rewrite Hpsb, Hps. }
  exists (List.length q1), wa, wb. rewrite <- Hl at 1. rewrite <- Hnp.
  by repeat split.
Qed.

Lemma next_content (w w1 : World) (x : pair) :
  0 < batch_size (self w) ->
  __next__ w = (Ok x, w1) ->
  exists f,
    reads w1 = reads w ++ f
    /\ _preload (self w1) ++ [x]
       ≡ₚ _preload (self w) ++ concat (pairs_at (lmdb w) <$> f)
    /\ lmdb w1 = lmdb w
    /\ batch_size (self w1) = batch_size (self w)
    /\ preload_size (self w1) = preload_size (self w)
    /\ (f = []
        \/ Z.of_nat (List.length (_preload (self w))) < batch_size (self w)
           /\ exists fuel wa wb,
                load_loop fuel [] wa
                = (Ok (concat (pairs_at (lmdb w) <$> f)), wb)
                /\ lmdb wa = lmdb w
                /\ preload_size (self wa) = preload_size (self w)).
Proof.
  intros Hb E. unfold __next__, _load_next in E.
  apply bind_Ok in E as (w0 & ? & [= <- <-] & E).
  apply bind_Ok in E as ([] & wa & Ea & E).
  assert (Ha : exists f, reads wa = reads w ++ f
             /\ _preload (self wa)
                ≡ₚ _preload (self w) ++ concat (pairs_at (lmdb w) <$> f)
             /\ lmdb wa = lmdb w
             /\ batch_size (self wa) = batch_size (self w)
             /\ preload_size (self wa) = preload_size (self w)
             /\ (f = []
                 \/ Z.of_nat (List.length (_preload (self w)))
                    < batch_size (self w)
                    /\ exists fuel wa wb,
                         load_loop fuel [] wa
                         = (Ok (concat (pairs_at (lmdb w) <$> f)), wb)
                         /\ lmdb wa = lmdb w
                         /\ preload_size (self wa) = preload_size (self w))).
  { destruct (Z.ltb_spec (Z.of_nat (List.length (_preload (self w))))
                         (batch_size (self w))) as [Hlt|Hge].
    - apply refill_content in Ea as (f & ? & ? & ? & ? & ? & ?); [|done].
      exists f. do 5 (split; [done|]). right. by split.
    - injection Ea as <-. exists []. cbn. rewrite !app_nil_r.
      do 5 (split; [done|]). by left. }
  destruct Ha as (f & Hr & Hp & Hl & Hbs & Hps & Hcase).
  apply bind_Ok in E as (w0 & ? & [= <- <-] & E).
  unfold list_pop in E.
  destruct (last (_preload (self wa))) as [y|] eqn:Hlast; [|done].
  apply bind_Ok in E as ([] & wb & Eb & E).
  injection E as <- <-.
  unfold set_preload, set_self, modify in Eb. injection Eb as <-.
  exists f. cbn. split; [done|]. split; [|done].
  rewrite <- Hp.
  assert (Hsplit : _preload (self wa) = removelast (_preload (self wa)) ++ [y]).
  { apply last_Some in Hlast as [l' ->]. by rewrite removelast_last. }
  by rewrite <- Hsplit.
Qed.

(** The loop gathers fewer than [preload_size] pairs before its last
    record. *)
Lemma load_loop_bound (m : Z) (fuel : nat) : forall acc w np w1,
  (forall i, Z.of_nat (List.length (pairs_at (lmdb w) i)) <= m) ->
  load_loop fuel acc w = (Ok np, w1) ->
  Z.of_nat (List.length np)
  <= Z.max (Z.of_nat (List.length acc)) (preload_size (self w) - 1 + m).
Proof.
  induction fuel as [|fuel IH]; intros acc w np w1 Hm E.
  - injection E as <- <-. lia.
  - cbn [load_loop] in E.
    apply bind_Ok in E as (w0 & ? & [= <- <-] & E).
    destruct (Z.ltb_spec (Z.of_nat (List.length acc)) (preload_size (self w)))
      as [Hlt|Hge].
    + apply bind_Ok in E as (q & ? & [Hq ->]%attr_Ok & E).
      destruct (list_pop q) as [[idx q']|].
      * apply bind_Ok in E as ([] & w2 & E2 & E).
        unfold set_load_ordering, set_self, modify in E2. injection E2 as <-.
        apply bind_Ok in E as (obs & w3 & E3 & E).
        unfold txn_get in E3. cbn [lmdb self rng reads] in E3.
        destruct (lmdb w !! idx) as [o|] eqn:Ho; [|done].
        injection E3 as <- <-.
        apply bind_Ok in E as (ps & w4 & [-> E4]%pairs_of_Ok & E).
        apply IH in E; [|done]. cbn [self preload_size] in E.
        rewrite length_app in E. specialize (Hm idx).
        unfold pairs_at in Hm. rewrite Ho, E4 in Hm. lia.
      * injection E as <- <-. lia.
    + injection E as <- <-. lia.
Qed.

Lemma take_items_content (n : nat) : forall w w1 items,
  0 < batch_size (self w) ->
  take_items n w = (Ok items, w1) ->
  exists f,
    reads w1 = reads w ++ f
    /\ items ++ _preload (self w1)
       ≡ₚ _preload (self w) ++ concat (pairs_at (lmdb w) <$> f)
    /\ List.length items = n.
Proof.
  induction n as [|n IH]; intros w w1 items Hb E.
  - injection E as <- <-. exists []. cbn. by rewrite !app_nil_r.
  - cbn [take_items] in E.
    apply bind_Ok in E as (x & wa & Ea & E).
    apply bind_Ok in E as (xs & wb & Eb & E).
    injection E as <- <-.
    apply next_content in Ea as (f1 & Hr1 & Hp1 & Hl1 & Hb1 & _); [|done].
    apply IH in Eb as (f2 & Hr2 & Hp2 & Hlen); [|by rewrite Hb1].
    exists (f1 ++ f2). split. { by rewrite Hr2, Hr1, app_assoc. }
    split; [|cbn; lia].
    rewrite Hl1 in Hp2.
    rewrite fmap_app, concat_app, app_assoc, <- Hp1.
    cbn [app]. rewrite Hp2. rewrite <- app_assoc. cbn [app].
    apply Permutation_middle.
Qed.

Lemma next_bound (m : Z) (w w1 : World) (x : pair) :
  0 < batch_size (self w) -> 0 < preload_size (self w) ->
  (forall i, Z.of_nat (List.length (pairs_at (lmdb w) i)) <= m) ->
  __next__ w = (Ok x, w1) ->
  Z.of_nat (List.length (_preload (self w)))
  <= batch_size (self w) + preload_size (self w) + m - 2 ->
  Z.of_nat (List.length (_preload (self w1)))
  <= batch_size (self w) + preload_size (self w) + m - 2.
Proof.
  intros Hb Hps Hm E Hinv.
  apply next_content in E as (f & _ & Hp & _ & _ & _ & Hcase); [|done].
  apply Permutation_length in Hp. rewrite !length_app in Hp. cbn in Hp.
  destruct Hcase as [->|(Hlt & fuel & wa & wb & Eloop & Hla & Hpa)].
  - cbn in Hp. lia.
  - apply (load_loop_bound m) in Eloop; [|by rewrite Hla].
    rewrite Hpa in Eloop. cbn [List.length] in Eloop.
    pose proof (Hm 0). lia.
Qed.

Lemma take_items_bound (m : Z) (n : nat) : forall w w1 items,
  0 < batch_size (self w) -> 0 < preload_size (self w) ->
  (forall i, Z.of_nat (List.length (pairs_at (lmdb w) i)) <= m) ->
  take_items n w = (Ok items, w1) ->
  Z.of_nat (List.length (_preload (self w)))
  <= batch_size (self w) + preload_size (self w) + m - 2 ->
  Z.of_nat (List.length (_preload (self w1)))
  <= batch_size (self w) + preload_size (self w) + m - 2.
Proof.
  induction n as [|n IH]; intros w w1 items Hb Hps Hm E Hinv.
  - by injection E as <- <-.
  - cbn [take_items] in E.
    apply bind_Ok in E as (x & wa & Ea & E).
    apply bind_Ok in E as (xs & wb & Eb & E).
    injection E as <- <-.
    pose proof (next_bound m w wa x Hb Hps Hm Ea Hinv) as Ha.
    apply next_content in Ea as (f & _ & _ & Hl & Hbs & Hpsa & _); [|done].
    rewrite <- Hbs, <- Hpsa in *.
    apply (IH wa wb xs); try done. by rewrite Hl.
Qed.

Lemma elem_of_concat {A} (x : A) (ls : list (list A)) :
  x ∈ concat ls -> exists l, x ∈ l /\ l ∈ ls.
Proof.
  induction ls as [|l ls IH]; cbn.
  - by intros ?%elem_of_nil.
  - intros [H|H]%elem_of_app.
    + exists l. split; [done|by left].
    + destruct (IH H) as (l' & ? & ?). exists l'. split; [done|by right].
Qed.

Lemma tracking_reads_in_shard s e w done cur :
  tracking s e w done cur -> forall i, i ∈ reads w -> s <= i < e.
Proof.
  intros [_ Hrd Hdone (q & _ & [Hcur _])] i Hi.
  rewrite Hrd in Hi. apply elem_of_app in Hi as [Hi|Hi].
  - apply elem_of_concat in Hi as (P & HiP & HP).
    rewrite Forall_forall in Hdone. destruct (Hdone P HP) as [HPr _].
    rewrite HPr in HiP. by apply elem_of_range in HiP.
  - apply elem_of_range. rewrite <- Hcur. apply elem_of_app. by left.
Qed.

Lemma iter_fresh (store : gmap Z Observation) (bs : Z) g
    (worker_info : option (Z * Z)) s e :
  0 < bs ->
  (forall id W, worker_info = Some (id, W) -> W <> 0) ->
  shard (Z.of_nat (size store)) worker_info = (s, e) ->
  s < e ->
  (forall i, s <= i < e -> loadable store i) ->
  exists w1,
    __iter__ worker_info (fresh store bs g) = (Ok tt, w1)
    /\ tracking s e w1 [] []
    /\ lmdb w1 = store /\ reads w1 = [] /\ _preload (self w1) = []
    /\ batch_size (self w1) = bs /\ preload_size (self w1) = bs * 10.
Proof.
  intros Hb Hwi Hsh Hse Hst.
  destruct (iter_tracking store bs g worker_info s e Hb Hwi Hsh Hse Hst)
    as (w1 & E1 & Hps1 & Ht1).
  destruct (iter_general worker_info (fresh store bs g) s e Hwi
              ltac:(cbn; lia) Hsh)
    as (P & w1' & E & _ & _ & _ & _ & _ & Hpre & Hrd & Hl & Hbs & _).
  rewrite E1 in E. injection E as <-.
  exists w1. split; [done|]. split; [done|]. split; [exact Hl|].
  split; [exact Hrd|]. split; [exact Hpre|]. split; [exact Hbs|exact Hps1].
Qed.

(** X19. For a worker as in C9 (every record of its shard loadable) and
    any number of calls: the items yielded together with those still in
    the buffer are, up to order, the pairs of the records read from the
    store, each read counted; no pair is lost, none is yielded twice, and
    only keys of the shard are read. *)
Theorem nothing_lost_nothing_twice (store : gmap Z Observation) (bs : Z)
    (g : random.state) (worker_info : option (Z * Z)) (s e : Z) (n : nat) :
  0 < bs ->
  (forall id W, worker_info = Some (id, W) -> W <> 0) ->
  shard (Z.of_nat (size store)) worker_info = (s, e) ->
  s < e ->
  (forall i, s <= i < e -> loadable store i) ->
  exists items w',
    bind (__iter__ worker_info) (fun _ => take_items n) (fresh store bs g)
    = (Ok items, w')
    /\ List.length items = n
    /\ items ++ _preload (self w') ≡ₚ concat (pairs_at store <$> reads w')
    /\ (forall i, i ∈ reads w' -> s <= i < e).
Proof.
  intros Hb Hwi Hsh Hse Hst.
  destruct (iter_fresh store bs g worker_info s e Hb Hwi Hsh Hse Hst)
    as (w1 & E1 & Ht1 & Hl1 & Hr1 & Hp1 & Hb1 & Hps1).
  destruct (run_tracking s e n w1 [] [] Ht1)
    as (w' & done & cur & (items & E & Hlen) & Ht').
  exists items, w'. unfold bind. rewrite E1. split; [exact E|].
  split; [exact Hlen|]. split.
  - apply take_items_content in E as (f & Hr & Hp & _); [|by rewrite Hb1].
    rewrite Hp, Hp1, Hr, Hr1, Hl1. done.
  - by eapply tracking_reads_in_shard.
Qed.

(** X20. For a worker as in C9 (every record of its shard loadable) whose
    records hold at most [m] pairs each, the buffer never holds more than
    [11 * batch_size + m - 2] pairs after a call. *)
Theorem buffer_is_bounded (store : gmap Z Observation) (bs m : Z)
    (g : random.state) (worker_info : option (Z * Z)) (s e : Z) (n : nat) :
  0 < bs ->
  (forall id W, worker_info = Some (id, W) -> W <> 0) ->
  shard (Z.of_nat (size store)) worker_info = (s, e) ->
  s < e ->
  (forall i, s <= i < e -> loadable store i) ->
  (forall i, Z.of_nat (List.length (pairs_at store i)) <= m) ->
  exists items w',
    bind (__iter__ worker_info) (fun _ => take_items n) (fresh store bs g)
    = (Ok items, w')
    /\ Z.of_nat (List.length (_preload (self w'))) <= 11 * bs + m - 2.
Proof.
  intros Hb Hwi Hsh Hse Hst Hm.
  destruct (iter_fresh store bs g worker_info s e Hb Hwi Hsh Hse Hst)
    as (w1 & E1 & Ht1 & Hl1 & Hr1 & Hp1 & Hb1 & Hps1).
  destruct (run_tracking s e n w1 [] [] Ht1)
    as (w' & done & cur & (items & E & Hlen) & Ht').
  exists items, w'. unfold bind. rewrite E1. split; [exact E|].
  pose proof (Hm 0) as Hm0.
  pose proof (take_items_bound m n w1 w' items) as Hbound.
  rewrite Hb1, Hps1, Hl1, Hp1 in Hbound. cbn in Hbound.
  specialize (Hbound Hb ltac:(lia) Hm E). lia.
Qed.
End Conservation.

Lemma nothing_lost_nothing_twice_witness :
  exists items w',
    bind (FramesDataset.__iter__ (Some (1, 3)%Z))
         (fun _ => FramesDataset.take_items 7)
         (Stream.fresh (Stream.store_of 23) 3 [2; 7; 1])
    = (Ok items, w')
    /\ length items = 7
    /\ items ++ FramesDataset._preload (FramesDataset.self w')
       ≡ₚ concat (Stream.pairs_at (Stream.store_of 23)
                   <$> FramesDataset.reads w')
    /\ (forall i, i ∈ FramesDataset.reads w' -> (8 <= i < 16)%Z).
Proof.
  refine (nothing_lost_nothing_twice (Stream.store_of 23) 3 _ (Some (1, 3)%Z)
            8 16 7 _ _ _ _ _).
  - lia.
  - intros id W [= _ <-]. lia.
  - vm_compute. reflexivity.
  - lia.
  - apply holds_pairs_spec. vm_compute. reflexivity.
Defined.

Lemma store_of_pairs (n i : Z) :
  (Z.of_nat (length (Stream.pairs_at (Stream.store_of n) i)) <= 1)%Z.
Proof.
  unfold Stream.pairs_at.
  destruct (Stream.store_of n !! i) as [o|] eqn:Ho; [|cbn; lia].
  apply elem_of_list_to_map_2 in Ho.
  apply list_elem_of_fmap in Ho as (j & [= _ ->] & _). cbn. lia.
Qed.

Lemma buffer_is_bounded_witness :
  exists items w',
    bind (FramesDataset.__iter__ None) (fun _ => FramesDataset.take_items 40)
         (Stream.fresh (Stream.store_of 23) 3 [2; 7; 1])
    = (Ok items, w')
    /\ (Z.of_nat (length (FramesDataset._preload (FramesDataset.self w')))
        <= 11 * 3 + 1 - 2)%Z.
Proof.
  refine (buffer_is_bounded (Stream.store_of 23) 3 1 _ None 0 23 40
            _ _ _ _ _ _).
  - lia.
  - intros id W H. discriminate H.
  - vm_compute. reflexivity.
  - lia.
  - apply holds_pairs_spec. vm_compute. reflexivity.
  - intros i. apply store_of_pairs.
Defined.
